(** * pharmalink: customer-to-pharmacy assignment and trip estimation

    A shallow embedding of the notebook cells that assign every customer to
    one of its nearest pharmacies, request round trips from the routing
    engine for three modes of transport, and build the table of mode
    probabilities per distance bucket.

    Floating-point numbers of the notebooks are read as exact rationals
    ([Q]); the one non-finite value the code produces, [1 / 0.0 = inf], is
    kept as a constructor of its own.  Random draws and the completion
    order of concurrent tasks are explicit inputs. *)

From Stdlib Require Import QArith Qabs Lqa Permutation Sorting.Sorted.
From stdpp Require Import base list gmap strings.

Local Open Scope Q_scope.

(** * Part I: the program *)

(** ** Exceptions of the Python run time and results that may raise *)

Inductive exn : Type :=
| ZeroDivisionError
| KeyError
| IndexError
| ValueError (msg : string)
| ClientError
| CancelledError
(* Named by the error taxonomy of the specification; no cell of the
   notebooks raises them. *)
| ServiceUnavailable
| NoViableMode
| OutOfRangeError.

Inductive result (A : Type) : Type :=
| Ok (a : A)
| Err (e : exn).

Arguments Ok {A} a.
Arguments Err {A} e.

#[global] Instance result_ret : MRet result := fun _ a => Ok a.

#[global] Instance result_bind : MBind result := fun _ _ k r =>
  match r with
  | Ok a => k a
  | Err e => Err e
  end.

(** ** Numbers and modes *)

(** [sum(...)] of a list of floats. *)
Definition Qsum (l : list Q) : Q := fold_right Qplus 0 l.

Definition Qlt_bool (a b : Q) : bool := negb (Qle_bool b a).

(** Modes of transport, the [costing] values of the routing engine. *)
Inductive mot : Type := auto | bicycle | pedestrian.

#[global] Instance mot_eq_dec : EqDecision mot.
Proof. solve_decision. Defined.

(** [["auto", "bicycle", "pedestrian"]], the modes [process_customer]
    asks for, in this order. *)
Definition mots : list mot := [auto; bicycle; pedestrian].

(** ** Assignment Selector *)

Module Assignment.

(** A pandas Series of distances: index label (the pharmacy) and value, in
    row order.  Labels are those of the pharmacies' frame, one row each. *)
Definition label := positive.
Definition Series := list (label * Q).

(** [Series.sort_values(axis=0, ascending=True)].  pandas leaves the order
    of equal distances to its sorting algorithm; they are kept in row order
    here, as the specification has it. *)
Fixpoint insert_sorted (r : label * Q) (s : Series) : Series :=
  match s with
  | [] => [r]
  | r' :: s' =>
      if Qle_bool (snd r) (snd r') then r :: r' :: s'
      else r' :: insert_sorted r s'
  end.

Definition sort_values (s : Series) : Series := fold_right insert_sorted [] s.

(** [Series.head(3)] *)
Definition head (n : nat) (s : Series) : Series := take n s.

(** [closest = ph_locs.distance(cus).sort_values(axis=0, ascending=True).head(3)] *)
Definition closest (dists : Series) : Series := head 3 (sort_values dists).

(** A float that is a finite number or [inf]. *)
Inductive weight : Type :=
| Fin (q : Q)
| Inf.

(** [1 / closest]: element-wise float division; [1 / 0.0] is [inf] in a
    Series, no exception is raised. *)
Definition rtruediv (d : Q) : weight :=
  if Qeq_bool d 0 then Inf else Fin (1 / d).

Definition inverse_weights (s : Series) : list weight :=
  map (fun r => rtruediv (snd r)) s.

(** pandas' validation of the weights of [sample]: no [inf], no negative
    entry, a non-zero sum; the weights are then divided by their sum. *)
Fixpoint finite_weights (ws : list weight) : option (list Q) :=
  match ws with
  | [] => Some []
  | Inf :: _ => None
  | Fin q :: ws' =>
      match finite_weights ws' with
      | Some qs => Some (q :: qs)
      | None => None
      end
  end.

Definition preprocess_weights (ws : list weight) : result (list Q) :=
  match finite_weights ws with
  | None => Err (ValueError "weight vector may not include `inf` values")
  | Some qs =>
      if existsb (fun q => Qlt_bool q 0) qs
      then Err (ValueError "weight vector many not include negative values")
      else if Qeq_bool (Qsum qs) 0
      then Err (ValueError "Invalid weights: weights sum to zero")
      else Ok (map (fun q => q / Qsum qs) qs)
  end.

(** numpy's [choice(n, size=1, p=p)]: the cumulative sums of [p], divided
    by the last one, searched from the left for the first entry above the
    uniform draw [u]. *)
Fixpoint cumsum_from (acc : Q) (p : list Q) : list Q :=
  match p with
  | [] => []
  | w :: p' => (acc + w) :: cumsum_from (acc + w) p'
  end.

Definition cumsum (p : list Q) : list Q := cumsum_from 0 p.

Definition cdf (p : list Q) : list Q :=
  let c := cumsum p in
  map (fun x => x / List.last c 0) c.

Fixpoint searchsorted_right (c : list Q) (u : Q) : nat :=
  match c with
  | [] => 0
  | x :: c' => if Qle_bool x u then S (searchsorted_right c' u) else 0
  end.

(** [s.sample(weights=ws)]: one row of [s], drawn with [u]. *)
Definition sample (s : Series) (ws : list weight) (u : Q) : result (label * Q) :=
  p ← preprocess_weights ws;
  match s !! searchsorted_right (cdf p) u with
  | Some r => Ok r
  | None => Err IndexError
  end.

(** The body of the loop over customers:
    [closest.sample(weights=1 / closest).index[0]]. *)
Definition choose_pharmacy (dists : Series) (u : Q) : result label :=
  let closest := closest dists in
  r ← sample closest (inverse_weights closest) u;
  Ok (fst r).

(** Points of the projected plane (EPSG:25832). *)
Record Point : Type := mkPoint { px : Q; py : Q }.

(** [ph_locs.distance(cus)]: the distance of every pharmacy to [cus]; the
    planar distance itself is the geometry library's. *)
Definition distances (distance : Point -> Point -> Q)
    (ph_locs : list (label * Point)) (cus : Point) : Series :=
  map (fun ph => (fst ph, distance (snd ph) cus)) ph_locs.

(** The loop [for cus in cus_locs: chosen_pharmacies.append(...)]; the
    [i]-th customer is drawn with [draw i]. *)
Fixpoint chosen_pharmacies_from (distance : Point -> Point -> Q)
    (ph_locs : list (label * Point)) (draw : nat -> Q) (i : nat)
    (cus_locs : list Point) : result (list label) :=
  match cus_locs with
  | [] => Ok []
  | cus :: rest =>
      p ← choose_pharmacy (distances distance ph_locs cus) (draw i);
      ps ← chosen_pharmacies_from distance ph_locs draw (S i) rest;
      Ok (p :: ps)
  end.

Definition chosen_pharmacies (distance : Point -> Point -> Q)
    (ph_locs : list (label * Point)) (draw : nat -> Q)
    (cus_locs : list Point) : result (list label) :=
  chosen_pharmacies_from distance ph_locs draw 0 cus_locs.

(** The brute-force reading of "one of the k nearest": fewer than [k]
    pharmacies are strictly closer. *)
Definition strictly_closer (dists : Series) (d : Q) : Series :=
  List.filter (fun r => Qlt_bool (snd r) d) dists.

(** Rows in ascending order of distance. *)
Definition le_dist (a b : label * Q) : Prop := snd a <= snd b.

Definition among_k_nearest (k : nat) (dists : Series) (p : label) : Prop :=
  exists d, In (p, d) dists /\ (length (strictly_closer dists d) < k)%nat.

End Assignment.

(** ** Mode probability table *)

Module ModeTable.

(** An interval bound: a finite break or [float("inf")]. *)
Inductive bound : Type :=
| Finite (q : Q)
| PlusInf.

(** [breaks = [0, 0.5, 1, 2, 5, 10, 20, 50, 100, float("inf")]] *)
Definition breaks : list bound :=
  [Finite 0; Finite 0.5; Finite 1; Finite 2; Finite 5; Finite 10;
   Finite 20; Finite 50; Finite 100; PlusInf].

Record interval : Type := mkInterval { left : bound; right : bound }.

(** [pd.IntervalIndex.from_breaks(breaks, closed="left")]: one interval
    per pair of neighbouring breaks. *)
Fixpoint from_breaks (bs : list bound) : list interval :=
  match bs with
  | b :: (b' :: _) as rest => mkInterval b b' :: from_breaks rest
  | _ => []
  end.

Definition index : list interval := from_breaks breaks.

Definition bound_le_bool (b : bound) (x : Q) : bool :=
  match b with
  | Finite q => Qle_bool q x
  | PlusInf => false
  end.

Definition bound_gt_bool (b : bound) (x : Q) : bool :=
  match b with
  | Finite q => Qlt_bool x q
  | PlusInf => true
  end.

(** Membership in an interval closed on the left: [left <= x < right]. *)
Definition contains (i : interval) (x : Q) : bool :=
  bound_le_bool (left i) x && bound_gt_bool (right i) x.

(** Length [x] falls into bucket [i] of the index. *)
Definition in_bucket (x : Q) (i : nat) : Prop :=
  exists iv, index !! i = Some iv /\ contains iv x = true.

(** The shares of one distance class as read from the survey table, each
    already divided by 100. *)
Record raw_row : Type := mkRaw {
  car_driver : Q;
  car_passenger : Q;
  motorcycle : Q;
  taxi : Q;
  raw_bicycle : Q;
  raw_pedestrian : Q
}.

(** One record of [probs]: a probability per mode. *)
Record row : Type := mkRow { p_auto : Q; p_bicycle : Q; p_pedestrian : Q }.

(** [probs.loc["auto"] = car_driver + car_passenger + motorcycle + taxi],
    then [probs.loc[["auto", "bicycle", "pedestrian"]]]. *)
Definition combine (r : raw_row) : row :=
  mkRow (car_driver r + car_passenger r + motorcycle r + taxi r)
        (raw_bicycle r) (raw_pedestrian r).

(** [probs.agg(axis=1, func="sum")] on one row. *)
Definition row_sum (r : row) : Q := p_auto r + p_bicycle r + p_pedestrian r.

(** [probs.div(probs.agg(axis=1, func="sum"), axis=0)] on one row; a row
    whose sum is zero becomes a row of NaN, here [None]. *)
Definition normalize (r : row) : option row :=
  if Qeq_bool (row_sum r) 0 then None
  else Some (mkRow (p_auto r / row_sum r) (p_bicycle r / row_sum r)
                   (p_pedestrian r / row_sum r)).

Definition probs (raw : list raw_row) : list (option row) :=
  map (fun r => normalize (combine r)) raw.

(** [output = {"breaks": breaks, "data": probs.to_dict(orient="records")}] *)
Record output : Type := mkOutput {
  out_breaks : list bound;
  out_data : list row
}.

(** The table as the notebook printed it with [json.dumps(output)]. *)
Definition dumped : output :=
  mkOutput breaks
    [ mkRow 0.12371134020618557 0.09278350515463918 0.7835051546391752;
      mkRow 0.3010752688172043 0.1827956989247312 0.5161290322580645;
      mkRow 0.47727272727272724 0.2159090909090909 0.3068181818181818;
      mkRow 0.6790123456790124 0.16049382716049382 0.16049382716049382;
      mkRow 0.8552631578947368 0.09210526315789475 0.05263157894736842;
      mkRow 0.948051948051948 0.03896103896103895 0.012987012987012984;
      mkRow 0.961038961038961 0.025974025974025972 0.012987012987012986;
      mkRow 0.9726027397260274 0.027397260273972605 0.0;
      mkRow 1.0 0.0 0.0 ].

(** The tolerance of a comparison of floats near 1. *)
Definition tolerance : Q := 0.000000000000001.

Definition prob (r : row) (m : mot) : Q :=
  match m with
  | auto => p_auto r
  | bicycle => p_bicycle r
  | pedestrian => p_pedestrian r
  end.

End ModeTable.

(** ** Mode Inference Engine *)

Module ModeInference.
Import ModeTable.

(** Modelled from the spec: [evaluate_mode_of_transport] lives in
    [pharmalink.code.sources], which is not among the source files.  The
    bucket lookup: the position of the interval, closed on the left, that
    contains the average length. *)
Fixpoint locate_from (i : nat) (ix : list interval) (x : Q) : option nat :=
  match ix with
  | [] => None
  | iv :: ix' => if contains iv x then Some i else locate_from (S i) ix' x
  end.

Definition locate_bucket (ix : list interval) (x : Q) : option nat :=
  locate_from 0 ix x.

(** Modelled from the spec: the bucket's row restricted to the modes that
    returned data. *)
Definition restrict (r : row) (available : list mot) : list (mot * Q) :=
  map (fun m => (m, prob r m)) available.

(** Modelled from the spec: the probability mass of a list of weights. *)
Definition mass (ws : list (mot * Q)) : Q := Qsum (map snd ws).

(** Modelled from the spec: the restricted weights divided by their sum. *)
Definition renormalize (ws : list (mot * Q)) : list (mot * Q) :=
  map (fun mw => (fst mw, snd mw / mass ws)) ws.

(** Modelled from the spec: the fallback when no available mode carries
    probability mass, a uniform choice among the available modes. *)
Definition uniform (available : list mot) : list (mot * Q) :=
  map (fun m => (m, 1 / inject_Z (Z.of_nat (length available)))) available.

(** Modelled from the spec: the weights the mode is drawn with. *)
Definition effective_weights (r : row) (available : list mot) : list (mot * Q) :=
  let ws := restrict r available in
  if Qeq_bool (mass ws) 0 then uniform available else renormalize ws.

(** Modelled from the spec: weighted random sampling with the uniform
    draw [u]: the first mode whose cumulative weight exceeds [u]. *)
Definition weighted_choice (ws : list (mot * Q)) (u : Q) : option mot :=
  fst <$> ws !! Assignment.searchsorted_right (Assignment.cumsum (map snd ws)) u.

(** Modelled from the spec: section 4.4, with its two edge cases. *)
Definition evaluate_mode_of_transport (table : output) (avg_length : Q)
    (available : list mot) (u : Q) : result mot :=
  if Qlt_bool avg_length 0 then Err OutOfRangeError
  else if decide (available = []) then Err NoViableMode
  else
    match locate_bucket (from_breaks (out_breaks table)) avg_length with
    | None => Err OutOfRangeError
    | Some i =>
        match out_data table !! i with
        | None => Err IndexError
        | Some r =>
            match weighted_choice (effective_weights r available) u with
            | Some m => Ok m
            | None => Err IndexError
            end
        end
    end.

End ModeInference.

(** ** Trip Fetcher *)

Module Trips.

Definition cus_id := Z.

(** [{"lat": ..., "lon": ...}] *)
Record location : Type := mkLocation { lat : Q; lon : Q }.

(** The JSON body of a [/route] request. *)
Record request : Type := mkRequest {
  id : cus_id;
  locations : list location;
  costing : mot;
  units : string;
  directions_type : string
}.

Record summary : Type := mkSummary {
  length : Q;
  time : Q;
  has_toll : bool;
  has_highway : bool;
  has_ferry : bool;
  has_time_restrictions : bool
}.

(** The [trip] object of a response; [trip_mot] is the key ["mot"], absent
    until [process_customer] sets it. *)
Record trip : Type := mkTrip {
  trip_locations : list location;
  legs : list summary;
  trip_summary : summary;
  trip_mot : option mot
}.

(** A response of the engine: with or without the key ["trip"]. *)
Record response : Type := mkResponse { response_trip : option trip }.

(** A row of [customers.itertuples()]: index, geometry, chosen pharmacy. *)
Record customer : Type := mkCustomer {
  cus_index : cus_id;
  cus_loc : Assignment.Point;
  chosen_pharmacy : Assignment.label
}.

(** A Python dict as its items in insertion order: [d[k] = v] replaces the
    value of a present key and appends an absent one. *)
Fixpoint dict_set {V : Type} (k : mot) (v : V) (d : list (mot * V)) : list (mot * V) :=
  match d with
  | [] => [(k, v)]
  | (k', v') :: d' =>
      if decide (k = k') then (k, v) :: d' else (k', v') :: dict_set k v d'
  end.

(** [d[k]] *)
Fixpoint dict_get {V : Type} (k : mot) (d : list (mot * V)) : result V :=
  match d with
  | [] => Err KeyError
  | (k', v) :: d' => if decide (k = k') then Ok v else dict_get k d'
  end.

(** [d.keys()] *)
Definition keys {V : Type} (d : list (mot * V)) : list mot := map fst d.

(** The location of a point: [y] is the latitude and [x] the longitude. *)
Definition location_of (p : Assignment.Point) : location :=
  mkLocation (Assignment.py p) (Assignment.px p).

Section Customer.

(** The running engine behind the session: the answer to a request, or
    the exception raised while awaiting it. *)
Variable session : request -> result response.

(** The order in which [asyncio.as_completed] yields the three fetches. *)
Variable as_completed : list request -> list request.

(** [src.evaluate_mode_of_transport(avg_length, results.keys())]; its
    random draw is part of the function given. *)
Variable evaluate_mode_of_transport : Q -> list mot -> result mot.

(** [pharmacies.loc[label, "geometry"]] *)
Variable pharmacies : gmap Assignment.label Assignment.Point.

(** The [params] of [fetch_trip]. *)
Definition params (cus : cus_id) (locs : list location) (m : mot) : request :=
  mkRequest cus locs m "kilometers" "none".

(** [fetch_trip]: the mode of the request and the JSON of the answer. *)
Definition fetch_trip (r : request) : result (mot * response) :=
  json ← session r;
  Ok (costing r, json).

(** The three tasks [process_customer] creates for [cus], one request per
    mode, all with the same list [[start, target, end]]; a task is
    represented by its request. *)
Definition tasks (cus : customer) : result (list request) :=
  match pharmacies !! chosen_pharmacy cus with
  | None => Err KeyError
  | Some ph_loc =>
      let start := location_of (cus_loc cus) in
      let end_ := start in
      let target := location_of ph_loc in
      let locations := [start; target; end_] in
      Ok (map (params (cus_index cus) locations) mots)
  end.

(** The loop over the completed tasks: a response with the key ["trip"]
    is stored under its mode, any other is dropped. *)
Fixpoint collect (completed : list request) (results : list (mot * trip))
  : result (list (mot * trip)) :=
  match completed with
  | [] => Ok results
  | task :: rest =>
      mr ← fetch_trip task;
      match response_trip (snd mr) with
      | Some t => collect rest (dict_set (fst mr) t results)
      | None => collect rest results
      end
  end.

(** [sum([...]) / len(results)] *)
Definition avg_length (results : list (mot * trip)) : result Q :=
  if decide (List.length results = 0%nat) then Err ZeroDivisionError
  else Ok (Qsum (map (fun mt => length (trip_summary (snd mt))) results)
           / inject_Z (Z.of_nat (List.length results))).

(** [results[chosen_mot]["mot"] = chosen_mot] *)
Definition set_mot (t : trip) (m : mot) : trip :=
  mkTrip (trip_locations t) (legs t) (trip_summary t) (Some m).

(** [process_customer]: the pair is the dict [{cus_id: results[chosen_mot]}]. *)
Definition process_customer (cus : customer) : result (cus_id * trip) :=
  ts ← tasks cus;
  results ← collect (as_completed ts) [];
  avg ← avg_length results;
  chosen_mot ← evaluate_mode_of_transport avg (keys results);
  t ← dict_get chosen_mot results;
  Ok (cus_index cus, set_mot t chosen_mot).

End Customer.

End Trips.

(** ** Routing Service Lifecycle and the batch *)

Module Batch.
Import Trips.

(** What a run of [calculate_trips] does, in order:
    [valhalla_instance.start()], [asyncio.sleep(seconds)],
    [valhalla_instance.reload()], entering the [async with] block of the
    client session, [trips.update(...)] with the trip of a customer,
    leaving the block, [valhalla_instance.stop()]. *)
Inductive event : Type :=
| EvStart
| EvSleep (seconds : Q)
| EvReload
| EvSessionEnter
| EvTrip (cus : cus_id)
| EvSessionExit
| EvStop.

#[global] Instance event_eq_dec : EqDecision event.
Proof.
  intros a b. unfold Decision.
  decide equality; try apply Z.eq_dec.
  destruct seconds as [n1 d1], seconds0 as [n2 d2].
  destruct (Z.eq_dec n1 n2), (Pos.eq_dec d1 d2); [left|right..]; congruence.
Defined.

(** How a run ends: it returns, it raises, or it is still polling when
    the fuel of the model is spent. *)
Inductive outcome (A : Type) : Type :=
| Returned (a : A)
| Raised (e : exn)
| Polling.

Arguments Returned {A} a.
Arguments Raised {A} e.
Arguments Polling {A}.

(** The events of [n] rounds of the wait for the engine. *)
Fixpoint polls (n : nat) : list event :=
  match n with
  | O => []
  | S n' => EvSleep 0.1 :: EvReload :: polls n'
  end.

Section Run.

(** [valhalla_instance.health] after [n] calls of [reload()]. *)
Variable health : nat -> string.

Variable session : request -> result response.
Variable as_completed : list request -> list request.
Variable evaluate_mode_of_transport : Q -> list mot -> result mot.
Variable pharmacies : gmap Assignment.label Assignment.Point.

(** The order in which [asyncio.as_completed] yields the customers. *)
Variable customers_completed : list customer -> list customer.

(** [while valhalla_instance.health != "healthy": sleep(0.1); reload()],
    run for at most [fuel] tests of the condition; the result is the
    number of reloads once the condition fails. *)
Fixpoint await_ready (reloads fuel : nat) : list event * option nat :=
  match fuel with
  | O => ([], None)
  | S fuel' =>
      if String.eqb (health reloads) "healthy" then ([], Some reloads)
      else
        let rest := await_ready (S reloads) fuel' in
        (EvSleep 0.1 :: EvReload :: fst rest, snd rest)
  end.

(** [for task in asyncio.as_completed(tasks): trips.update(await task)] *)
Fixpoint gather (completed : list customer) (trips : gmap cus_id trip)
  : list event * result (gmap cus_id trip) :=
  match completed with
  | [] => ([], Ok trips)
  | cus :: rest =>
      match process_customer session as_completed evaluate_mode_of_transport
              pharmacies cus with
      | Err e => ([], Err e)
      | Ok (i, t) =>
          let r := gather rest (<[i := t]> trips) in
          (EvTrip i :: fst r, snd r)
      end
  end.

(** [calculate_trips]: the events of the run and how it ends. *)
Definition calculate_trips (customers : list customer) (fuel : nat)
  : list event * outcome (gmap cus_id trip) :=
  let ready := await_ready 0 fuel in
  match snd ready with
  | None => (EvStart :: fst ready, Polling)
  | Some _ =>
      let batch := gather (customers_completed customers) ∅ in
      let before := EvStart :: fst ready ++ [EvSleep 1; EvSessionEnter] in
      match snd batch with
      | Err e => (before ++ fst batch ++ [EvSessionExit], Raised e)
      | Ok trips =>
          (before ++ fst batch ++ [EvSessionExit; EvStop], Returned trips)
      end
  end.

End Run.

End Batch.

(** ** Sample inputs *)

Module Demo.
Import Assignment ModeTable Trips Batch.

(** The planar distance of two points of one horizontal line. *)
Definition axis_distance (a b : Point) : Q := Qabs (px a - px b).

Definition ph_locs : list (label * Point) :=
  [ (1%positive, mkPoint 4 0); (2%positive, mkPoint 1 0);
    (3%positive, mkPoint 20 0); (4%positive, mkPoint 9 0) ].

Definition cus_locs : list Point := [mkPoint 0 0; mkPoint 10 0].

Definition draw (i : nat) : Q := 0.5.

(** A customer standing at pharmacy 1. *)
Definition at_pharmacy : Series := distances axis_distance ph_locs (mkPoint 4 0).

(** An area with one pharmacy, at the customer's own point. *)
Definition single_pharmacy : Series :=
  distances axis_distance [(1%positive, mkPoint 4 0)] (mkPoint 4 0).

(** An area with two pharmacies. *)
Definition two_pharmacies : Series := [(1%positive, 2.5); (2%positive, 0.75)].

Definition pharmacies : gmap label Point :=
  <[1%positive := mkPoint 11.58 48.14]> (<[2%positive := mkPoint 11.6 48.2]> ∅).

Definition customer_7 : customer :=
  mkCustomer 7%Z (mkPoint 11.57 48.13) 1%positive.

Definition customers : list customer :=
  [ customer_7; mkCustomer 8%Z (mkPoint 11.61 48.19) 2%positive ].

(** The three requests for customer 7. *)
Definition tasks_7 : list request :=
  map (params 7%Z [mkLocation 48.13 11.57; mkLocation 48.14 11.58;
                   mkLocation 48.13 11.57]) mots.

(** An engine that finds no route at all. *)
Definition no_route (r : request) : result response := Ok (mkResponse None).


(** An engine that finds no route for customer 7. *)
Definition no_route_for_7 (r : request) : result response :=
  if (id r =? 7)%Z then Ok (mkResponse None)
  else Ok (mkResponse (Some (mkTrip (locations r) []
             (mkSummary 3.2 700 false false false false) None))).

(** An engine that finds a route for every mode but the car. *)
Definition routed (r : request) : result response :=
  match costing r with
  | auto => Ok (mkResponse None)
  | bicycle =>
      Ok (mkResponse (Some (mkTrip (locations r) []
            (mkSummary 2.4 540 false false false false) None)))
  | pedestrian =>
      Ok (mkResponse (Some (mkTrip (locations r) []
            (mkSummary 2.1 1560 false false false false) None)))
  end.

(** The shares of two distance classes before normalisation. *)
Definition raw_classes : list raw_row :=
  [ mkRaw 0.07 0.04 0.002 0.001 0.09 0.76;
    mkRaw 0.31 0.12 0.01 0.005 0.21 0.3 ].

Definition evaluate (avg : Q) (available : list mot) : result mot :=
  ModeInference.evaluate_mode_of_transport dumped avg available 0.5.

(** The engine is healthy after [n] reloads. *)
(** The trip of customer 7 that [routed] answers for the bicycle, as
    [process_customer] marks it. *)
Definition trip_7 : trip :=
  mkTrip [mkLocation 48.13 11.57; mkLocation 48.14 11.58; mkLocation 48.13 11.57]
         [] (mkSummary 2.4 540 false false false false) (Some bicycle).

Definition healthy_after (n : nat) (reloads : nat) : string :=
  if (reloads <? n)%nat then "starting" else "healthy".

Definition never_healthy (reloads : nat) : string := "starting".

End Demo.

(** ** From the assignment to the trips, and the totals *)

Module Pipeline.
Import Assignment Trips.

(** The cell of the Assignment Selector as a whole: the projected copies
    [ph_locs = pharmacies.to_crs(epsg=25832).geometry] and [cus_locs], the
    loop, and [customers["chosen_pharmacy"] = chosen_pharmacies]; the
    result is the rows of [customers.itertuples()].  The list assigned to
    the column has one entry per customer, so the rows pair up. *)
Definition assign (to_crs : Point -> Point) (distance : Point -> Point -> Q)
    (pharmacies : list (label * Point)) (customers : list (cus_id * Point))
    (draw : nat -> Q) : result (list customer) :=
  let ph_locs := map (fun ph => (fst ph, to_crs (snd ph))) pharmacies in
  let cus_locs := map (fun c => to_crs (snd c)) customers in
  ps ← chosen_pharmacies distance ph_locs draw cus_locs;
  Ok (zip_with (fun c p => mkCustomer (fst c) (snd c) p) customers ps).

(** The frame [pharmacies] as [process_customer] reads it with
    [pharmacies.loc[label, "geometry"]]; the labels of the index are
    taken to be distinct, as those of a frame read from a file are. *)
Definition geometry_of (pharmacies : list (label * Point)) : gmap label Point :=
  list_to_map pharmacies.

(** What the loop of [process_customer] is to store for the requests of
    [order]: the trips of the answers that have one, under their modes. *)
Definition fetched (session : request -> result response)
    (order : list request) : list (mot * trip) :=
  omap (fun r =>
          match session r with
          | Ok resp => (fun t => (costing r, t)) <$> response_trip resp
          | Err _ => None
          end) order.

(** The events of merging the trips of the customers [cs], in order. *)
Definition trip_events (cs : list customer) : list Batch.event :=
  map (fun c => Batch.EvTrip (cus_index c)) cs.





End Pipeline.

(** ** Rings of linestrings *)

Module Ring.

Section Coords.

(** Coordinates are compared with [==]. *)
Context {coord : Type} `{EqDecision coord}.

(** [l[0]] *)
Definition first_item {A : Type} (l : list A) : result A :=
  match l with
  | [] => Err IndexError
  | x :: _ => Ok x
  end.

(** [l[-1]] *)
Definition last_item {A : Type} (l : list A) : result A :=
  match last l with
  | Some x => Ok x
  | None => Err IndexError
  end.

(** [[ls.coords[0] for ls in linestrings]]; a linestring is the list of
    its coordinates. *)
Fixpoint starts (linestrings : list (list coord)) : result (list coord) :=
  match linestrings with
  | [] => Ok []
  | ls :: rest =>
      p ← first_item ls;
      ps ← starts rest;
      Ok (p :: ps)
  end.

(** [all(points[i] == points[i+1] for i in range(len(points) - 1))] *)
Fixpoint connected (points : list coord) : bool :=
  match points with
  | p :: (q :: _) as rest => bool_decide (p = q) && connected rest
  | _ => true
  end.

Definition is_closed_ring (linestrings : list (list coord)) : result bool :=
  ss ← starts linestrings;
  ls ← last_item linestrings;
  e ← last_item ls;
  let points := ss ++ [e] in
  p0 ← first_item points;
  pn ← last_item points;
  let is_closed := bool_decide (p0 = pn) in
  let is_connected := connected points in
  Ok (is_closed && is_connected).

End Coords.

End Ring.

(** ** Names of districts *)

Module CityTypes.
Import Stdlib.Strings.Ascii.

Local Open Scope string_scope.

Definition comma : ascii := ","%char.

(** The characters of [s] hold no comma: [',' not in s]. *)
Definition no_comma (s : string) : Prop :=
  ~ In comma (String.list_ascii_of_string s).

(** [s.rsplit(',', 1)] of a string with a comma: what stands before the
    rightmost comma and what stands after it; [None] when [','] is not
    in [s]. *)
Fixpoint rsplit_comma (s : string) : option (string * string) :=
  match s with
  | EmptyString => None
  | String c s' =>
      match rsplit_comma s' with
      | Some (before, after) => Some (String c before, after)
      | None => if Ascii.eqb c comma then Some (EmptyString, s') else None
      end
  end.

(** [needle in hay] *)
Fixpoint is_in (needle hay : string) : bool :=
  String.prefix needle hay
  || match hay with
     | EmptyString => false
     | String _ hay' => is_in needle hay'
     end.

(** The truth value of a string: false for the empty string only. *)
Definition truthy (s : string) : bool := negb (String.eqb s "").

Section Rearrange.

(** [str.strip] and [str.title] *)
Variables strip title : string -> string.

(** The inner function [rearrange]. *)
Definition rearrange (s : string) : string :=
  match rsplit_comma s with
  | None => s
  | Some (part0, part1) =>
      if is_in "kreisfreie Stadt" part1 || truthy "Landkreis"
         || is_in "Kreis" part1
      then title (strip part1) +:+ " " +:+ title (strip part0)
      else s
  end.

(** [df[column] = df[column].apply(rearrange)] on the column. *)
Definition rearrange_city_types (column : list string) : list string :=
  map rearrange column.

End Rearrange.

End CityTypes.

(** ** Looking up an area by its regional key *)

Module RegionalKey.
Import Stdlib.Strings.Ascii.

(** [n] characters ['0'] *)
Fixpoint zeros (n : nat) : string :=
  match n with
  | O => EmptyString
  | S n' => String "0"%char (zeros n')
  end.

(** [f"{regional_key:0<12}"]: the key, filled on the right with ['0'] to
    a width of 12. *)
Definition pad_key (regional_key : string) : string :=
  regional_key +:+ zeros (12 - String.length regional_key).

Section Lookup.

(** The elements of an answer of the Overpass API. *)
Variable element : Type.

(** [response['elements']] for the query with a key. *)
Variable overpass : string -> list element.

(** The first cell: the keys queried, in order, and
    [response['elements'][0]]. *)
Definition first_element (regional_key : string)
  : list string * result element :=
  let response := overpass regional_key in
  match response with
  | e :: _ => ([regional_key], Ok e)
  | [] =>
      let regional_key' := pad_key regional_key in
      ([regional_key; regional_key'],
       Ring.first_item (overpass regional_key'))
  end.

End Lookup.

End RegionalKey.

(** ** Geocoding the distribution centers *)

Module DistCenters.
Import Assignment.

Inductive error : Type :=
| HTTPError
| NameError.

Inductive attempt (A : Type) : Type :=
| Done (a : A)
| Failed (e : error).

Arguments Done {A} a.
Arguments Failed {A} e.

(** The column ["location"] of [dist_centers] ([None] is [pd.NA]), the
    variable [location] of the notebook ([None] while it is unbound), and
    the number of calls of [time.sleep(1)]. *)
Record state : Type := mkState {
  column : list (option Point);
  location : option Point;
  slept : nat
}.

Definition start : state := mkState [] None 0.

(** The locations in a column, in the order of the rows. *)
Definition found (col : list (option Point)) : list Point := omap id col.

Section Geocode.

(** A row of [dist_centers]. *)
Variable row : Type.

(** The answer of Nominatim for a row: the error of
    [raise_for_status()], or [data] as the points
    [Point(float(d["lon"]), float(d["lat"]))] of its entries. *)
Variable nominatim : row -> attempt (list Point).

(** The loop [for index, row in dist_centers.iterrows()]. *)
Fixpoint geocode (rows : list row) (st : state) : attempt state :=
  match rows with
  | [] => Done st
  | r :: rest =>
      match nominatim r with
      | Failed e => Failed e
      | Done (p :: _) =>
          geocode rest (mkState (column st ++ [Some p]) (Some p) (S (slept st)))
      | Done [] =>
          geocode rest (mkState (column st ++ [None]) (location st) (S (slept st)))
      end
  end.

(** The answer of Overpass for the way of the building: the error of
    [raise_for_status()], or the centers of [data["elements"]]. *)
Variable overpass : attempt (list Point).

(** [dist_centers.at[0, "location"] = location]; on a frame without rows
    the assignment adds the row. *)
Definition set_first (p : Point) (col : list (option Point)) : list (option Point) :=
  match col with
  | [] => [Some p]
  | _ :: rest => Some p :: rest
  end.

(** The cell of the manual correction. *)
Definition correct (st : state) : attempt state :=
  match overpass with
  | Failed e => Failed e
  | Done elements =>
      let location' :=
        match elements with
        | c :: _ => Some c
        | [] => location st
        end in
      match location' with
      | None => Failed NameError
      | Some p => Done (mkState (set_first p (column st)) (Some p) (slept st))
      end
  end.

End Geocode.

End DistCenters.

(** ** Collecting the sources of the simulation *)

Module SourcesCopy.

(** What a path is: a regular file, a directory, or something that
    exists and is neither. *)
Inductive kind : Type :=
| File
| Dir
| Other.

Inductive error : Type :=
| MissingSource (source_name : string)
| NotADirectoryError
| IsADirectoryError
| FileExistsError.

(** An entry of [sources]: [source[0]] and [source[1:]]. *)
Record source : Type := mkSource {
  first : string;
  rest : list string
}.

(** The last component of [copy_from], the path [notebook_path] joined
    with the components of the source. *)
Definition name (src : source) : string := List.last (rest src) (first src).

(** [destination] before the cell runs. *)
Inductive entry : Type :=
| Absent
| IsFile
| IsDir (contents : gmap string kind).

(** The entries of [destination] and the lines printed. *)
Record state : Type := mkState {
  dest : gmap string kind;
  printed : list string
}.

Section Copy.

(** [copy_from.exists()], [is_file()] and [is_dir()] for a source; the
    sources lie outside [destination], so the loop does not change
    them. *)
Variable kind_of : source -> option kind.

(** The loop [for source in sources]: the state reached and the
    exception that ended it, if any. *)
Fixpoint copy_sources (sources : list source) (st : state)
  : state * option error :=
  match sources with
  | [] => (st, None)
  | src :: more =>
      let next d := copy_sources more (mkState d (printed st ++ [first src])) in
      match kind_of src with
      | None => (st, Some (MissingSource (first src)))
      | Some File =>
          (* shutil.copy(copy_from, destination) *)
          match dest st !! name src with
          | Some Dir => (st, Some IsADirectoryError)
          | _ => next (<[name src := File]> (dest st))
          end
      | Some Dir =>
          (* shutil.copytree(copy_from, destination.joinpath(source[0])) *)
          match dest st !! first src with
          | Some _ => (st, Some FileExistsError)
          | None => next (<[first src := Dir]> (dest st))
          end
      | Some Other => next (dest st)
      end
  end.

(** The cell: [destination] is removed if it exists, made anew, and
    filled. *)
Definition collect_sources (before : entry) (sources : list source)
  : option state * option error :=
  match before with
  | IsFile => (None, Some NotADirectoryError)
  | Absent | IsDir _ =>
      let r := copy_sources sources (mkState ∅ []) in
      (Some (fst r), snd r)
  end.

(** What the loop leaves in [destination] for a source. *)
Definition copied (d : gmap string kind) (src : source) : Prop :=
  match kind_of src with
  | Some File => d !! name src = Some File
  | Some Dir => d !! first src = Some Dir
  | Some Other => True
  | None => False
  end.

(** An entry of [destination] that a source accounts for. *)
Definition copy_of (n : string) (k : kind) (src : source) : Prop :=
  (kind_of src = Some File /\ n = name src /\ k = File)
  \/ (kind_of src = Some Dir /\ n = first src /\ k = Dir).

(** The source at which the loop raises an exception. *)
Definition raised_at (d : gmap string kind) (e : error) (src : source) : Prop :=
  match e with
  | MissingSource source_name =>
      kind_of src = None /\ source_name = first src
  | IsADirectoryError =>
      kind_of src = Some File /\ d !! name src = Some Dir
  | FileExistsError =>
      kind_of src = Some Dir /\ is_Some (d !! first src)
  | NotADirectoryError => False
  end.

(** What a run of the loop from [st] to [st'] ending with [oe] did. *)
Definition loop_did (sources : list source) (st st' : state)
    (oe : option error) : Prop :=
  (forall n k, dest st !! n = Some k -> k <> Other -> dest st' !! n = Some k)
  /\ exists done todo,
       sources = done ++ todo
       /\ printed st' = printed st ++ map first done
       /\ Forall (copied (dest st')) done
       /\ (forall n k, dest st' !! n = Some k ->
             dest st !! n = Some k
             \/ exists src, In src done /\ copy_of n k src)
       /\ match oe with
          | None => todo = []
          | Some e =>
              exists src more, todo = src :: more
                               /\ raised_at (dest st') e src
          end.

End Copy.

End SourcesCopy.

(** ** Further sample inputs *)

Module Samples.
Import Assignment ModeTable Trips Batch.

(** Two customers on the line of the pharmacies of [Demo.ph_locs]. *)
Definition located_customers : list (cus_id * Point) :=
  [ (7%Z, mkPoint 0 0); (8%Z, mkPoint 10 0) ].

(** The same customers with the pharmacies a draw of 0.5 assigns. *)
Definition assigned : list customer :=
  [ mkCustomer 7%Z (mkPoint 0 0) 2%positive;
    mkCustomer 8%Z (mkPoint 10 0) 4%positive ].

(** The request of [Demo.customer_7] for a mode. *)
Definition task_7 (m : mot) : request :=
  params 7%Z [mkLocation 48.13 11.57; mkLocation 48.14 11.58;
              mkLocation 48.13 11.57] m.

(** An engine whose answer for the bicycle cannot be read. *)
Definition bicycle_fails (r : request) : result response :=
  match costing r with
  | bicycle => Err ClientError
  | _ => Demo.routed r
  end.

(** Answers that complete in the order of the requests. *)
Definition in_order {A : Type} (l : list A) : list A := l.

(** The shares of a short distance class before normalisation. *)
Definition raw_short : raw_row := mkRaw 0.07 0.04 0.002 0.001 0.09 0.76.

(** Nominatim knows the first and the third of three centers. *)
Definition nominatim (row : nat) : DistCenters.attempt (list Point) :=
  match row with
  | 0%nat => DistCenters.Done [mkPoint 11.5 48.1]
  | 2%nat => DistCenters.Done [mkPoint 8.7 50.1; mkPoint 8.8 50.2]
  | _ => DistCenters.Done []
  end.

Definition geocoded : DistCenters.state :=
  DistCenters.mkState
    [Some (mkPoint 11.5 48.1); None; Some (mkPoint 8.7 50.1)]
    (Some (mkPoint 8.7 50.1)) 3.

(** The sources of the notebook. *)
Definition sources : list SourcesCopy.source :=
  [ SourcesCopy.mkSource "transport_modes" ["transport_modes.json"];
    SourcesCopy.mkSource "admin_areas" ["admin_areas.gpkg.xz"];
    SourcesCopy.mkSource "distribution_centers" ["distribution_centers.gpkg.xz"];
    SourcesCopy.mkSource "pharmacies" ["pharmacies.gpkg.xz"];
    SourcesCopy.mkSource "population_grids" ["population_grids"];
    SourcesCopy.mkSource "residential_areas" ["residential_areas"] ].

(** Every source is there: the grids and the areas as directories. *)
Definition all_there (src : SourcesCopy.source) : option SourcesCopy.kind :=
  if bool_decide (SourcesCopy.first src = "population_grids"
                  \/ SourcesCopy.first src = "residential_areas")
  then Some SourcesCopy.Dir else Some SourcesCopy.File.

(** The pharmacies have not been generated yet. *)
Definition no_pharmacies (src : SourcesCopy.source) : option SourcesCopy.kind :=
  if bool_decide (SourcesCopy.first src = "pharmacies") then None
  else all_there src.

(** A destination left over from an earlier run. *)
Definition leftover : SourcesCopy.entry :=
  SourcesCopy.IsDir {[ "old.json" := SourcesCopy.File ]}.

End Samples.

(** * Part II: properties *)

(** ** Rationals *)

Lemma Qlt_bool_iff (a b : Q) : Qlt_bool a b = true <-> a < b.
Proof.
  unfold Qlt_bool. rewrite negb_true_iff. split.
  - intros H. apply Qnot_le_lt. intros Hle.
    apply Qle_bool_iff in Hle. congruence.
  - intros H. destruct (Qle_bool b a) eqn:E; [|reflexivity].
    apply Qle_bool_iff in E. exfalso. exact (Qlt_not_le _ _ H E).
Qed.

Lemma Qlt_bool_false_iff (a b : Q) : Qlt_bool a b = false <-> b <= a.
Proof.
  unfold Qlt_bool. rewrite negb_false_iff. apply Qle_bool_iff.
Qed.

Lemma Qle_bool_false_iff (a b : Q) : Qle_bool a b = false <-> b < a.
Proof.
  rewrite <- Qlt_bool_iff. unfold Qlt_bool.
  destruct (Qle_bool a b); simpl; split; congruence.
Qed.

Lemma Qeq_bool_false_iff (a b : Q) : Qeq_bool a b = false <-> ~ a == b.
Proof.
  split.
  - intros H Heq. apply Qeq_bool_iff in Heq. congruence.
  - intros H. destruct (Qeq_bool a b) eqn:E; [|reflexivity].
    apply Qeq_bool_iff in E. contradiction.
Qed.

Lemma Qsum_app (l1 l2 : list Q) : Qsum (l1 ++ l2) == Qsum l1 + Qsum l2.
Proof.
  induction l1 as [|x l1 IH]; simpl.
  - lra.
  - rewrite IH. lra.
Qed.

Lemma Qsum_nonneg (l : list Q) : Forall (fun q => 0 <= q) l -> 0 <= Qsum l.
Proof.
  induction 1 as [|x l Hx _ IH]; simpl; lra.
Qed.

Lemma Qsum_pos (l : list Q) : l <> [] -> Forall (fun q => 0 < q) l -> 0 < Qsum l.
Proof.
  intros Hne Hall. destruct Hall as [|x l Hx Hl]; [congruence|].
  simpl. assert (0 <= Qsum l).
  { apply Qsum_nonneg. eapply Forall_impl; [exact Hl|]. intros q Hq; simpl in *; lra. }
  lra.
Qed.

Lemma Qsum_div (l : list Q) (t : Q) :
  Qsum (map (fun q => q / t) l) == Qsum l / t.
Proof.
  induction l as [|x l IH]; simpl.
  - unfold Qdiv. lra.
  - rewrite IH. unfold Qdiv. lra.
Qed.

(** ** Assignment Selector: sorting *)

Section Sorting.
Import Assignment.

Lemma insert_sorted_perm (r : label * Q) (s : Series) :
  Permutation (insert_sorted r s) (r :: s).
Proof.
  induction s as [|r' s IH]; simpl.
  - reflexivity.
  - destruct (Qle_bool (snd r) (snd r')).
    + reflexivity.
    + rewrite IH. apply perm_swap.
Qed.

Lemma sort_values_perm (s : Series) : Permutation (sort_values s) s.
Proof.
  induction s as [|r s IH]; simpl.
  - constructor.
  - rewrite insert_sorted_perm. now constructor.
Qed.

Lemma insert_sorted_hd (r a : label * Q) (s : Series) :
  le_dist a r -> HdRel le_dist a s -> HdRel le_dist a (insert_sorted r s).
Proof.
  intros Har Hs. destruct s as [|r' s]; simpl.
  - now constructor.
  - destruct (Qle_bool (snd r) (snd r')); constructor; trivial.
    now inversion Hs.
Qed.

Lemma insert_sorted_sorted (r : label * Q) (s : Series) :
  Sorted le_dist s -> Sorted le_dist (insert_sorted r s).
Proof.
  induction 1 as [|r' s Hs IH Hhd]; simpl.
  - repeat constructor.
  - destruct (Qle_bool (snd r) (snd r')) eqn:E.
    + apply Qle_bool_iff in E. repeat constructor; assumption.
    + apply Qle_bool_false_iff in E. constructor; [exact IH|].
      apply insert_sorted_hd; [|exact Hhd].
      unfold le_dist. lra.
Qed.

Lemma sort_values_sorted (s : Series) : StronglySorted le_dist (sort_values s).
Proof.
  apply Sorted_StronglySorted.
  - intros a b c Hab Hbc. unfold le_dist in *. lra.
  - induction s as [|r s IH]; simpl.
    + constructor.
    + now apply insert_sorted_sorted.
Qed.

Lemma sort_values_length (s : Series) :
  List.length (sort_values s) = List.length s.
Proof. apply Permutation_length, sort_values_perm. Qed.

Lemma filter_none {A : Type} (f : A -> bool) (l : list A) :
  Forall (fun x => f x = false) l -> List.filter f l = [].
Proof.
  induction 1 as [|x l Hx _ IH]; simpl; [reflexivity|].
  now rewrite Hx.
Qed.

Lemma filter_length_perm {A : Type} (f : A -> bool) (l l' : list A) :
  Permutation l l' ->
  List.length (List.filter f l) = List.length (List.filter f l').
Proof.
  induction 1 as [|x l l' _ IH|x y l|l l' l'' _ IH1 _ IH2]; simpl.
  - reflexivity.
  - destruct (f x); simpl; congruence.
  - destruct (f x), (f y); reflexivity.
  - congruence.
Qed.

(** In a sorted series no row from position [i] on is strictly closer
    than row [i]. *)
Lemma strictly_closer_sorted (s : Series) (i : nat) (p : label) (d : Q) :
  StronglySorted le_dist s -> s !! i = Some (p, d) ->
  (List.length (strictly_closer s d) <= i)%nat.
Proof.
  intros Hs. revert i. induction Hs as [|a s Hs IH Ha]; intros i Hi.
  - discriminate.
  - destruct i as [|j]; simpl in Hi.
    + injection Hi as ->. unfold strictly_closer.
      rewrite filter_none; [simpl; lia|].
      constructor.
      * apply Qlt_bool_false_iff. simpl. lra.
      * eapply Forall_impl; [exact Ha|].
        intros r Hr. apply Qlt_bool_false_iff. exact Hr.
    + specialize (IH j Hi). unfold strictly_closer in *. simpl.
      destruct (Qlt_bool (snd a) d); simpl; lia.
Qed.

Lemma closest_lookup (dists : Series) (i : nat) (r : label * Q) :
  closest dists !! i = Some r ->
  (i < 3)%nat /\ sort_values dists !! i = Some r.
Proof.
  unfold closest, head. intros H.
  apply lookup_take_Some in H. tauto.
Qed.

Lemma closest_length (dists : Series) :
  List.length (closest dists) = Nat.min 3 (List.length dists).
Proof.
  unfold closest, head. rewrite length_take, sort_values_length. reflexivity.
Qed.

Lemma closest_short (dists : Series) :
  (List.length dists <= 3)%nat -> Permutation (closest dists) dists.
Proof.
  intros H. unfold closest, head.
  rewrite take_ge by (rewrite sort_values_length; exact H).
  apply sort_values_perm.
Qed.

Lemma closest_In (dists : Series) (r : label * Q) :
  In r (closest dists) -> In r dists.
Proof.
  unfold closest, head. intros H.
  apply (Permutation_in _ (sort_values_perm dists)).
  apply list_elem_of_In. apply list_elem_of_In in H.
  exact (subseteq_take _ _ _ H).
Qed.

End Sorting.

(** ** Assignment Selector: the choice *)

Section Choice.
Import Assignment.

Lemma sample_lookup (s : Series) (ws : list weight) (u : Q) (r : label * Q) :
  sample s ws u = Ok r -> exists i, s !! i = Some r.
Proof.
  unfold sample. destruct (preprocess_weights ws) as [p|e]; simpl; [|discriminate].
  destruct (s !! searchsorted_right (cdf p) u) as [r'|] eqn:E; [|discriminate].
  intros [= <-]. eauto.
Qed.

Lemma choose_pharmacy_lookup (dists : Series) (u : Q) (p : label) :
  choose_pharmacy dists u = Ok p ->
  exists i d, closest dists !! i = Some (p, d).
Proof.
  unfold choose_pharmacy.
  destruct (sample _ _ u) as [[p' d]|e] eqn:E; simpl; [|discriminate].
  intros [= <-]. apply sample_lookup in E as [i Hi]. eauto.
Qed.

(** Whatever the order of equal distances, the first [k] rows of a sorted
    arrangement of the series are among the [k] nearest. *)
Lemma sorted_prefix_nearest (k : nat) (dists s : Series) (i : nat)
    (p : label) (d : Q) :
  Permutation s dists -> StronglySorted le_dist s ->
  s !! i = Some (p, d) -> (i < k)%nat ->
  among_k_nearest k dists p.
Proof.
  intros Hperm Hsorted Hi Hlt. exists d. split.
  - apply (Permutation_in _ Hperm).
    apply list_elem_of_In. eapply list_elem_of_lookup_2. exact Hi.
  - unfold strictly_closer.
    rewrite <- (filter_length_perm _ _ _ Hperm).
    pose proof (strictly_closer_sorted _ _ _ _ Hsorted Hi) as Hle.
    unfold strictly_closer in Hle. lia.
Qed.

Lemma choose_pharmacy_nearest (dists : Series) (u : Q) (p : label) :
  choose_pharmacy dists u = Ok p -> among_k_nearest 3 dists p.
Proof.
  intros H. apply choose_pharmacy_lookup in H as (i & d & Hi).
  apply closest_lookup in Hi as [Hlt Hi].
  exact (sorted_prefix_nearest 3 dists (sort_values dists) i p d
           (sort_values_perm dists) (sort_values_sorted dists) Hi Hlt).
Qed.

(** *** Weights of candidates at positive distances *)

Lemma finite_weights_positive (s : Series) :
  Forall (fun r => 0 < snd r) s ->
  finite_weights (inverse_weights s) = Some (map (fun r => 1 / snd r) s).
Proof.
  induction 1 as [|r s Hr _ IH]; [reflexivity|].
  change (inverse_weights (r :: s)) with (rtruediv (snd r) :: inverse_weights s).
  assert (rtruediv (snd r) = Fin (1 / snd r)) as ->.
  { unfold rtruediv.
    assert (Qeq_bool (snd r) 0 = false) as -> by (apply Qeq_bool_false_iff; lra).
    reflexivity. }
  simpl. now rewrite IH.
Qed.

Lemma finite_weights_zero (s : Series) (r : label * Q) :
  In r s -> snd r == 0 -> finite_weights (inverse_weights s) = None.
Proof.
  induction s as [|r' s IH]; [simpl; tauto|].
  change (inverse_weights (r' :: s)) with (rtruediv (snd r') :: inverse_weights s).
  intros [->|Hin] Hz.
  - unfold rtruediv. apply Qeq_bool_iff in Hz. now rewrite Hz.
  - simpl. destruct (rtruediv (snd r')); [|reflexivity].
    now rewrite (IH Hin Hz).
Qed.

Lemma inverse_positive (s : Series) :
  Forall (fun r => 0 < snd r) s ->
  Forall (fun q => 0 < q) (map (fun r : label * Q => 1 / snd r) s).
Proof.
  induction 1 as [|r s Hr _ IH]; simpl; constructor; [|exact IH].
  unfold Qdiv. rewrite Qmult_1_l. now apply Qinv_lt_0_compat.
Qed.

Lemma existsb_negative_false (qs : list Q) :
  Forall (fun q => 0 < q) qs -> existsb (fun q => Qlt_bool q 0) qs = false.
Proof.
  induction 1 as [|q qs Hq _ IH]; simpl; [reflexivity|].
  rewrite IH, orb_false_r. apply Qlt_bool_false_iff. lra.
Qed.

(** *** The cumulative distribution and the search in it *)

Lemma cumsum_from_length (acc : Q) (p : list Q) :
  List.length (cumsum_from acc p) = List.length p.
Proof.
  revert acc. induction p as [|w p IH]; intros acc; simpl; [reflexivity|].
  now rewrite IH.
Qed.

Lemma cumsum_from_last (acc : Q) (p : list Q) :
  p <> [] -> List.last (cumsum_from acc p) 0 == acc + Qsum p.
Proof.
  revert acc. induction p as [|w p IH]; intros acc Hne; [congruence|].
  destruct p as [|w' p].
  - simpl. lra.
  - change (List.last (cumsum_from acc (w :: w' :: p)) 0)
      with (List.last (cumsum_from (acc + w) (w' :: p)) 0).
    rewrite IH by discriminate. simpl. lra.
Qed.

Lemma last_map {A B : Type} (f : A -> B) (l : list A) (a : A) (b : B) :
  l <> [] -> List.last (map f l) b = f (List.last l a).
Proof.
  induction l as [|x l IH]; intros Hne; [congruence|].
  destruct l as [|y l]; [reflexivity|].
  change (List.last (map f (y :: l)) b = f (List.last (y :: l) a)).
  apply IH. discriminate.
Qed.

Lemma searchsorted_right_bound (c : list Q) (u : Q) :
  c <> [] -> u < List.last c 0 ->
  (searchsorted_right c u < List.length c)%nat.
Proof.
  induction c as [|x c IH]; intros Hne Hu; [congruence|].
  simpl. destruct (Qle_bool x u) eqn:E; [|lia].
  apply Qle_bool_iff in E.
  destruct c as [|y c].
  - simpl in Hu. lra.
  - apply -> Nat.succ_lt_mono. apply IH; [discriminate|exact Hu].
Qed.

Lemma cdf_length (p : list Q) : List.length (cdf p) = List.length p.
Proof.
  unfold cdf, cumsum. now rewrite length_map, cumsum_from_length.
Qed.

Lemma cdf_last (p : list Q) :
  p <> [] -> ~ Qsum p == 0 -> List.last (cdf p) 0 == 1.
Proof.
  intros Hne Hs. unfold cdf.
  assert (cumsum p <> []) as Hc.
  { unfold cumsum. destruct p; [congruence|discriminate]. }
  rewrite (last_map _ _ 0 0 Hc).
  assert (List.last (cumsum p) 0 == Qsum p) as Hl.
  { unfold cumsum. rewrite cumsum_from_last by exact Hne. lra. }
  rewrite Hl. field. exact Hs.
Qed.

Lemma searchsorted_cdf_bound (p : list Q) (u : Q) :
  p <> [] -> ~ Qsum p == 0 -> u < 1 ->
  (searchsorted_right (cdf p) u < List.length p)%nat.
Proof.
  intros Hne Hs Hu. rewrite <- cdf_length.
  apply searchsorted_right_bound.
  - intros Hnil. apply (f_equal (@List.length Q)) in Hnil.
    rewrite cdf_length in Hnil. destruct p; [congruence|discriminate].
  - rewrite cdf_last by assumption. exact Hu.
Qed.

Lemma sample_positive (s : Series) (u : Q) :
  s <> [] -> Forall (fun r => 0 < snd r) s -> u < 1 ->
  exists r, sample s (inverse_weights s) u = Ok r /\ In r s.
Proof.
  intros Hne Hpos Hu. unfold sample, preprocess_weights.
  rewrite (finite_weights_positive s Hpos).
  pose proof (inverse_positive s Hpos) as Hw.
  set (qs := map (fun r : label * Q => 1 / snd r) s) in *.
  assert (qs <> []) as Hqs by (subst qs; destruct s; [congruence|discriminate]).
  pose proof (Qsum_pos qs Hqs Hw) as Htot.
  rewrite (existsb_negative_false qs Hw).
  assert (Qeq_bool (Qsum qs) 0 = false) as ->.
  { apply Qeq_bool_false_iff. lra. }
  simpl.
  set (p := map (fun q => q / Qsum qs) qs).
  assert (List.length p = List.length s) as Hlen.
  { subst p qs. now rewrite !length_map. }
  assert (searchsorted_right (cdf p) u < List.length s)%nat as Hi.
  { rewrite <- Hlen. apply searchsorted_cdf_bound; [| |exact Hu].
    - intros Hnil. rewrite Hnil in Hlen. destruct s; [congruence|discriminate].
    - subst p. rewrite Qsum_div. intros H0.
      assert (Qsum qs / Qsum qs == 1) as H1 by (field; lra).
      rewrite H1 in H0. discriminate H0. }
  destruct (s !! searchsorted_right (cdf p) u) as [r|] eqn:Hr.
  - exists r. split; [reflexivity|].
    apply list_elem_of_In. eapply list_elem_of_lookup_2. exact Hr.
  - apply lookup_ge_None in Hr. lia.
Qed.

End Choice.

(** ** Assignment Selector: the claims *)

Section AssignmentClaims.
Import Assignment.

(** C5: every pharmacy that [chosen_pharmacies] assigns is one of the
    three nearest to its customer by brute-force comparison: it stands in
    the customer's series of distances, and fewer than three pharmacies
    are strictly closer to the customer. *)
Theorem assigned_pharmacy_among_three_nearest
    (distance : Point -> Point -> Q) (ph_locs : list (label * Point))
    (draw : nat -> Q) (cus_locs : list Point) (ps : list label) :
  chosen_pharmacies distance ph_locs draw cus_locs = Ok ps ->
  Forall2 (fun cus p => among_k_nearest 3 (distances distance ph_locs cus) p)
          cus_locs ps.
Proof.
  unfold chosen_pharmacies.
  enough (forall i ps,
            chosen_pharmacies_from distance ph_locs draw i cus_locs = Ok ps ->
            Forall2 (fun cus p =>
                       among_k_nearest 3 (distances distance ph_locs cus) p)
                    cus_locs ps) as Hfrom by apply Hfrom.
  clear ps. induction cus_locs as [|cus rest IH]; intros i ps; simpl.
  - intros [= <-]. constructor.
  - destruct (choose_pharmacy _ (draw i)) as [p|e] eqn:Ep; simpl; [|discriminate].
    destruct (chosen_pharmacies_from _ _ _ (S i) rest) as [ps'|e] eqn:Er;
      simpl; [|discriminate].
    intros [= <-]. constructor.
    + eapply choose_pharmacy_nearest; exact Ep.
    + eapply IH; exact Er.
Qed.

Lemma closest_positive (dists : Series) :
  (forall r, In r dists -> 0 < snd r) ->
  Forall (fun r => 0 < snd r) (closest dists).
Proof.
  intros H. apply List.Forall_forall. intros r Hr.
  apply H. now apply closest_In.
Qed.

Lemma closest_nonempty (dists : Series) : dists <> [] -> closest dists <> [].
Proof.
  intros Hne Hnil. apply (f_equal (@List.length _)) in Hnil.
  rewrite closest_length in Hnil. destruct dists; [congruence|].
  simpl in Hnil. lia.
Qed.

Lemma sort_values_head_min (dists : Series) (r : label * Q) :
  In r dists ->
  exists a rest, sort_values dists = a :: rest /\ snd a <= snd r.
Proof.
  intros Hin.
  pose proof (sort_values_sorted dists) as Hs.
  apply (Permutation_in _ (Permutation_sym (sort_values_perm dists))) in Hin.
  destruct (sort_values dists) as [|a rest]; [destruct Hin|].
  exists a, rest. split; [reflexivity|].
  destruct Hin as [->|Hin]; [lra|].
  apply StronglySorted_inv in Hs as [_ Hall].
  rewrite List.Forall_forall in Hall. exact (Hall r Hin).
Qed.

(** A pharmacy at distance zero makes the nearest candidate one at
    distance zero. *)
Lemma closest_has_zero (dists : Series) (r : label * Q) :
  (forall r', In r' dists -> 0 <= snd r') -> In r dists -> snd r == 0 ->
  exists a, In a (closest dists) /\ snd a == 0.
Proof.
  intros Hnn Hin Hz.
  destruct (sort_values_head_min dists r Hin) as (a & rest & Hs & Ha).
  assert (In a (closest dists)) as Hca.
  { unfold closest, head. rewrite Hs. simpl. now left. }
  exists a. split; [exact Hca|].
  pose proof (Hnn a (closest_In _ _ Hca)). lra.
Qed.

(** X17: with [n >= 1] pharmacies, none at distance zero, the
    candidates are [min 3 n] rows, all [n] pharmacies when [n < 3], and
    the choice returns one of the pharmacies for every draw. *)
Theorem short_candidate_list (dists : Series) (u : Q) :
  dists <> [] -> (forall r, In r dists -> 0 < snd r) -> 0 <= u < 1 ->
  List.length (closest dists) = Nat.min 3 (List.length dists)
  /\ ((List.length dists < 3)%nat -> Permutation (closest dists) dists)
  /\ exists p, choose_pharmacy dists u = Ok p /\ In p (map fst dists).
Proof.
  intros Hne Hpos [_ Hu]. split; [apply closest_length|]. split.
  - intros Hlt. apply closest_short. lia.
  - destruct (sample_positive (closest dists) u) as (r & Hr & Hin).
    + now apply closest_nonempty.
    + now apply closest_positive.
    + exact Hu.
    + exists (fst r). split.
      * unfold choose_pharmacy. now rewrite Hr.
      * apply in_map. now apply closest_In.
Qed.

(** C4: a customer with a pharmacy at distance exactly zero gets no
    pharmacy: the weight [1 / 0.0] is [inf] and [sample] refuses it with
    a [ValueError], whatever the draw. *)
Theorem zero_distance_raises (dists : Series) (u : Q) (r : label * Q) :
  (forall r', In r' dists -> 0 <= snd r') -> In r dists -> snd r == 0 ->
  choose_pharmacy dists u
  = Err (ValueError "weight vector may not include `inf` values")
  /\ forall p, choose_pharmacy dists u <> Ok p.
Proof.
  intros Hnn Hin Hz.
  destruct (closest_has_zero dists r Hnn Hin Hz) as (a & Hca & Haz).
  assert (finite_weights (inverse_weights (closest dists)) = None) as Hw
    by exact (finite_weights_zero _ a Hca Haz).
  unfold choose_pharmacy, sample, preprocess_weights. rewrite Hw.
  split; [reflexivity|]. intros p. discriminate.
Qed.

(** C10: in an area with fewer than three pharmacies all of them are
    candidates, as the claim says, but a customer with one of them at
    distance exactly zero is assigned none: the weight [1 / 0.0] is
    [inf] and [sample] raises a [ValueError], whatever the draw. *)
Theorem short_list_zero_distance_raises (dists : Series) (u : Q)
    (r : label * Q) :
  (List.length dists < 3)%nat ->
  (forall r', In r' dists -> 0 <= snd r') -> In r dists -> snd r == 0 ->
  List.length (closest dists) = Nat.min 3 (List.length dists)
  /\ Permutation (closest dists) dists
  /\ choose_pharmacy dists u
     = Err (ValueError "weight vector may not include `inf` values")
  /\ forall p, choose_pharmacy dists u <> Ok p.
Proof.
  intros Hlt Hnn Hin Hz.
  split; [apply closest_length|]. split; [apply closest_short; lia|].
  destruct (closest_has_zero dists r Hnn Hin Hz) as (a & Hca & Haz).
  pose proof (finite_weights_zero _ a Hca Haz) as Hw.
  assert (choose_pharmacy dists u
          = Err (ValueError "weight vector may not include `inf` values"))
    as Hraise.
  { unfold choose_pharmacy, sample, preprocess_weights. now rewrite Hw. }
  split; [exact Hraise|]. intros p. rewrite Hraise. discriminate.
Qed.

End AssignmentClaims.

(** ** Mode probability table: buckets *)

Section Buckets.
Import ModeTable ModeInference.

Lemma locate_from_sound (ix : list interval) (x : Q) :
  forall k i, locate_from k ix x = Some i ->
  exists j iv, i = (k + j)%nat /\ ix !! j = Some iv /\ contains iv x = true.
Proof.
  induction ix as [|iv ix IH]; intros k i; simpl; [discriminate|].
  destruct (contains iv x) eqn:E.
  - intros [= <-]. exists 0%nat, iv. split; [lia|]. split; [reflexivity|exact E].
  - intros H. apply IH in H as (j & iv' & -> & Hj & Hc).
    exists (S j), iv'. split; [lia|]. split; assumption.
Qed.

Lemma locate_bucket_sound (x : Q) (i : nat) :
  locate_bucket index x = Some i -> in_bucket x i.
Proof.
  intros H. apply locate_from_sound in H as (j & iv & -> & Hj & Hc).
  exists iv. split; assumption.
Qed.

(** Settle every comparison of the goal from the bounds known for [x]. *)
Ltac settle_comparisons :=
  repeat match goal with
    | |- context [Qle_bool ?a ?b] =>
        first
          [ assert (Qle_bool a b = true) as -> by (apply Qle_bool_iff; lra)
          | assert (Qle_bool a b = false) as -> by (apply Qle_bool_false_iff; lra) ]
    | |- context [Qlt_bool ?a ?b] =>
        first
          [ assert (Qlt_bool a b = true) as -> by (apply Qlt_bool_iff; lra)
          | assert (Qlt_bool a b = false) as -> by (apply Qlt_bool_false_iff; lra) ]
    end.

Ltac bounds_of_contains H :=
  unfold contains in H; simpl in H;
  try (apply andb_true_iff in H as [?Hl ?Hr]);
  repeat match goal with
    | Hc : Qle_bool _ _ = true |- _ => apply Qle_bool_iff in Hc
    | Hc : Qlt_bool _ _ = true |- _ => apply Qlt_bool_iff in Hc
    end.

Lemma locate_bucket_complete (x : Q) (i : nat) :
  in_bucket x i -> locate_bucket index x = Some i.
Proof.
  intros (iv & Hi & Hc).
  do 9 (destruct i as [|i];
        [ injection Hi as <-; bounds_of_contains Hc;
          unfold locate_bucket, index, breaks, from_breaks, locate_from, contains;
          simpl; settle_comparisons; reflexivity | ]).
  discriminate Hi.
Qed.

Lemma locate_bucket_total (x : Q) :
  0 <= x -> exists i, locate_bucket index x = Some i.
Proof.
  intros H0.
  unfold locate_bucket, index, breaks, from_breaks, locate_from, contains; simpl.
  destruct (Qlt_le_dec x 0.5); [settle_comparisons; eauto|].
  destruct (Qlt_le_dec x 1); [settle_comparisons; eauto|].
  destruct (Qlt_le_dec x 2); [settle_comparisons; eauto|].
  destruct (Qlt_le_dec x 5); [settle_comparisons; eauto|].
  destruct (Qlt_le_dec x 10); [settle_comparisons; eauto|].
  destruct (Qlt_le_dec x 20); [settle_comparisons; eauto|].
  destruct (Qlt_le_dec x 50); [settle_comparisons; eauto|].
  destruct (Qlt_le_dec x 100); settle_comparisons; eauto.
Qed.

(** C8: the buckets are the intervals [b_i, b_(i+1)) of the breaks, closed
    on the left, from 0 to infinity; every non-negative length lies in
    exactly one of them; a length equal to a break lies in the bucket that
    starts there and not in the one that ends there, so 2.0 lies in
    [2, 5). *)
Theorem buckets_left_closed :
  index
  = [ mkInterval (Finite 0) (Finite 0.5); mkInterval (Finite 0.5) (Finite 1);
      mkInterval (Finite 1) (Finite 2); mkInterval (Finite 2) (Finite 5);
      mkInterval (Finite 5) (Finite 10); mkInterval (Finite 10) (Finite 20);
      mkInterval (Finite 20) (Finite 50); mkInterval (Finite 50) (Finite 100);
      mkInterval (Finite 100) PlusInf ]
  /\ (forall x : Q, 0 <= x ->
        exists i, in_bucket x i /\ forall j, in_bucket x j -> j = i)
  /\ (forall i iv b, index !! i = Some iv -> left iv = Finite b -> in_bucket b i)
  /\ (forall iv b, right iv = Finite b -> contains iv b = false)
  /\ in_bucket 2 3
  /\ index !! 3%nat = Some (mkInterval (Finite 2) (Finite 5))
  /\ ~ in_bucket 2 2.
Proof.
  split; [reflexivity|]. split; [|split; [|split; [|split; [|split]]]].
  - intros x Hx. destruct (locate_bucket_total x Hx) as [i Hi].
    exists i. split; [now apply locate_bucket_sound|].
    intros j Hj. apply locate_bucket_complete in Hj. congruence.
  - intros i iv b Hi Hl. exists iv. split; [exact Hi|].
    do 9 (destruct i as [|i];
          [ injection Hi as <-; injection Hl as <-; reflexivity | ]).
    discriminate Hi.
  - intros iv b Hr. unfold contains. rewrite Hr. simpl.
    assert (Qlt_bool b b = false) as -> by (apply Qlt_bool_false_iff; lra).
    apply andb_false_r.
  - exists (mkInterval (Finite 2) (Finite 5)). split; reflexivity.
  - reflexivity.
  - intros (iv & Hi & Hc). injection Hi as <-. discriminate Hc.
Qed.

End Buckets.

(** ** Mode probability table: rows *)

Section Rows.
Import ModeTable.

Lemma normalize_sum (r r' : row) : normalize r = Some r' -> row_sum r' == 1.
Proof.
  unfold normalize. destruct (Qeq_bool (row_sum r) 0) eqn:E; [discriminate|].
  apply Qeq_bool_false_iff in E. intros [= <-].
  unfold row_sum in *. simpl. field. exact E.
Qed.

Lemma normalize_defined (r : row) :
  ~ row_sum r == 0 -> exists r', normalize r = Some r'.
Proof.
  intros H. unfold normalize.
  apply Qeq_bool_false_iff in H. rewrite H. eauto.
Qed.

Lemma dumped_rows_sum :
  Forall (fun r => Qabs (row_sum r - 1) <= tolerance) (out_data dumped).
Proof.
  repeat constructor; apply Qle_bool_iff; vm_compute; reflexivity.
Qed.

Lemma dumped_rows_nonneg :
  Forall (fun r => 0 <= p_auto r /\ 0 <= p_bicycle r /\ 0 <= p_pedestrian r)
         (out_data dumped).
Proof.
  repeat constructor; apply Qle_bool_iff; vm_compute; reflexivity.
Qed.

(** C9: every row that the normalisation of [probs] yields sums to 1 over
    auto, bicycle and pedestrian, and so does, within the tolerance of
    floats, every row of the table the notebook dumped, one row per
    bucket; no restriction to available modes is involved. *)
Theorem probs_rows_sum_to_one :
  (forall (raw : list raw_row) (r : row),
      In (Some r) (probs raw) -> row_sum r == 1)
  /\ Forall (fun r => Qabs (row_sum r - 1) <= tolerance) (out_data dumped)
  /\ List.length (out_data dumped) = List.length index.
Proof.
  split; [|split].
  - intros raw r Hin. unfold probs in Hin.
    apply in_map_iff in Hin as (rr & Hn & _).
    eapply normalize_sum. exact Hn.
  - exact dumped_rows_sum.
  - reflexivity.
Qed.

End Rows.

(** ** Mode Inference Engine *)

Section Inference.
Import ModeTable ModeInference.










End Inference.

Section InferenceClaims.
Import ModeTable ModeInference.



End InferenceClaims.

(** ** Trip Fetcher *)

Section TripClaims.
Import Trips.

Variable session : request -> result response.
Variable as_completed : list request -> list request.
Variable evaluate_mode_of_transport : Q -> list mot -> result mot.
Variable pharmacies : gmap Assignment.label Assignment.Point.

(** C7: every request that [process_customer] builds for a customer
    carries the customer's id and the triple customer, assigned pharmacy,
    customer: its first and last location are the same. *)
Theorem requests_are_round_trips (cus : customer) (ts : list request)
    (r : request) :
  tasks pharmacies cus = Ok ts -> In r ts ->
  exists ph_loc,
    pharmacies !! chosen_pharmacy cus = Some ph_loc
    /\ locations r
       = [location_of (cus_loc cus); location_of ph_loc; location_of (cus_loc cus)]
    /\ locations r !! 0%nat = locations r !! 2%nat
    /\ id r = cus_index cus.
Proof.
  unfold tasks. destruct (pharmacies !! chosen_pharmacy cus) as [ph_loc|];
    [|discriminate].
  intros [= <-] Hin. exists ph_loc. split; [reflexivity|].
  simpl in Hin. destruct Hin as [<-|[<-|[<-|[]]]]; simpl; auto.
Qed.

Lemma tasks_modes (cus : customer) (ts : list request) :
  tasks pharmacies cus = Ok ts -> map costing ts = mots.
Proof.
  unfold tasks. destruct (pharmacies !! chosen_pharmacy cus); [|discriminate].
  intros [= <-]. reflexivity.
Qed.

Lemma collect_no_trip (completed : list request) (results : list (mot * trip)) :
  Forall (fun r => exists resp, session r = Ok resp /\ response_trip resp = None)
         completed ->
  collect session completed results = Ok results.
Proof.
  induction 1 as [|r rest (resp & Hr & Hnone) _ IH]; simpl; [reflexivity|].
  unfold fetch_trip. rewrite Hr. simpl. rewrite Hnone. exact IH.
Qed.

Lemma process_customer_no_trip (cus : customer) (ts : list request) :
  tasks pharmacies cus = Ok ts ->
  Forall (fun r => exists resp, session r = Ok resp /\ response_trip resp = None)
         (as_completed ts) ->
  process_customer session as_completed evaluate_mode_of_transport pharmacies cus
  = Err ZeroDivisionError.
Proof.
  intros Hts Hnone. unfold process_customer. rewrite Hts. simpl.
  rewrite (collect_no_trip _ _ Hnone). reflexivity.
Qed.

Lemma dict_get_In {V : Type} (k : mot) (d : list (mot * V)) (v : V) :
  dict_get k d = Ok v -> In (k, v) d.
Proof.
  induction d as [|[k' v'] d IH]; simpl; [discriminate|].
  destruct (decide (k = k')) as [->|_].
  - intros [= ->]. now left.
  - intros H. right. now apply IH.
Qed.

Lemma dict_set_In {V : Type} (k k0 : mot) (v v0 : V) (d : list (mot * V)) :
  In (k0, v0) (dict_set k v d) -> (k0, v0) = (k, v) \/ In (k0, v0) d.
Proof.
  induction d as [|[k' v'] d IH]; simpl.
  - intros [H|[]]. now left.
  - destruct (decide (k = k')) as [->|_]; simpl.
    + intros [H|H]; auto.
    + intros [H|H]; auto. destruct (IH H); auto.
Qed.

(** Every entry of [results] is the trip of an answered request of its
    mode. *)
Lemma collect_entries (completed : list request) :
  forall results0 results m t,
  collect session completed results0 = Ok results ->
  In (m, t) results ->
  In (m, t) results0
  \/ exists r, In r completed /\ costing r = m
               /\ session r = Ok (mkResponse (Some t)).
Proof.
  induction completed as [|task rest IH]; intros results0 results m t; simpl.
  - intros [= <-]. auto.
  - unfold fetch_trip. destruct (session task) as [[[t'|]]|e] eqn:Hs; simpl;
      [| |discriminate].
    + intros Hc Hin. destruct (IH _ _ _ _ Hc Hin) as [H0|(r & Hr & Hm & Hsr)].
      * apply dict_set_In in H0 as [[= -> ->]|H0]; [|now left].
        right. exists task. auto.
      * right. exists r. auto.
    + intros Hc Hin. destruct (IH _ _ _ _ Hc Hin) as [H0|(r & Hr & Hm & Hsr)].
      * now left.
      * right. exists r. auto.
Qed.

(** X1: whatever [evaluate_mode_of_transport] answers, the trip that
    [process_customer] returns is the engine's answer to one of the
    customer's requests, marked with the mode of that request: the chosen
    mode is one that returned trip data. *)
Theorem process_customer_returns_fetched (cus : customer) (i : cus_id) (t : trip) :
  process_customer session as_completed evaluate_mode_of_transport pharmacies cus
  = Ok (i, t) ->
  i = cus_index cus
  /\ exists ts r t0,
       tasks pharmacies cus = Ok ts /\ In r (as_completed ts)
       /\ session r = Ok (mkResponse (Some t0))
       /\ t = set_mot t0 (costing r).
Proof.
  unfold process_customer.
  destruct (tasks pharmacies cus) as [ts|e]; simpl; [|discriminate].
  destruct (collect session (as_completed ts) []) as [results|e] eqn:Hc;
    simpl; [|discriminate].
  destruct (avg_length results) as [avg|e]; simpl; [|discriminate].
  destruct (evaluate_mode_of_transport avg (keys results)) as [m|e]; simpl;
    [|discriminate].
  destruct (dict_get m results) as [t0|e] eqn:Hg; simpl; [|discriminate].
  intros [= <- <-]. split; [reflexivity|].
  apply dict_get_In in Hg.
  destruct (collect_entries _ _ _ _ _ Hc Hg) as [[]|(r & Hr & <- & Hs)].
  exists ts, r, t0. auto.
Qed.

End TripClaims.

(** ** The batch and the life cycle of the engine *)

Section BatchClaims.
Import Trips Batch.

Variable health : nat -> string.
Variable session : request -> result response.
Variable as_completed : list request -> list request.
Variable evaluate_mode_of_transport : Q -> list mot -> result mot.
Variable pharmacies : gmap Assignment.label Assignment.Point.
Variable customers_completed : list customer -> list customer.

Local Abbreviation run := (calculate_trips health session as_completed
                   evaluate_mode_of_transport pharmacies customers_completed).
Local Abbreviation gathered := (gather session as_completed evaluate_mode_of_transport
                        pharmacies).



Lemma gather_raises (completed : list customer) (trips : gmap cus_id trip)
    (cus : customer) (e : exn) :
  In cus completed ->
  process_customer session as_completed evaluate_mode_of_transport pharmacies cus
  = Err e ->
  exists e', snd (gathered completed trips) = Err e'.
Proof.
  revert trips. induction completed as [|c rest IH]; intros trips Hin Hcus.
  - destruct Hin.
  - simpl. destruct (process_customer _ _ _ _ c) as [[i t]|err] eqn:Hc; simpl.
    + destruct Hin as [->|Hin]; [congruence|]. now apply IH.
    + eauto.
Qed.

(** C1: when none of the three answers for a customer has a trip,
    [process_customer] raises [ZeroDivisionError] at the average, and a
    batch with that customer returns no trips: the customer is not
    recorded as failed and the other customers' trips are lost. *)
Theorem no_viable_mode_divides_by_zero (cus : customer) (ts : list request)
    (customers : list customer) (fuel : nat) :
  tasks pharmacies cus = Ok ts ->
  Forall (fun r => exists resp, session r = Ok resp /\ response_trip resp = None)
         (as_completed ts) ->
  process_customer session as_completed evaluate_mode_of_transport pharmacies cus
  = Err ZeroDivisionError
  /\ (In cus (customers_completed customers) ->
      forall trips, snd (run customers fuel) <> Returned trips).
Proof.
  intros Hts Hnone.
  pose proof (process_customer_no_trip session as_completed
                evaluate_mode_of_transport pharmacies cus ts Hts Hnone) as Hcus.
  split; [exact Hcus|].
  intros Hin trips. unfold calculate_trips.
  destruct (snd (await_ready health 0 fuel)); cbn [snd]; [|discriminate].
  destruct (gather_raises (customers_completed customers) ∅ cus _ Hin Hcus)
    as [e' He'].
  rewrite He'. discriminate.
Qed.



Lemma await_ready_pending (fuel reloads : nat) :
  (forall k, (reloads <= k < reloads + fuel)%nat -> health k <> "healthy") ->
  await_ready health reloads fuel = (polls fuel, None).
Proof.
  revert reloads. induction fuel as [|fuel IH]; intros reloads H; simpl.
  - reflexivity.
  - destruct (String.eqb_spec (health reloads) "healthy") as [Heq|_].
    + exfalso. apply (H reloads); [lia|exact Heq].
    + rewrite IH; [reflexivity|]. intros k Hk. apply H. lia.
Qed.

Lemma await_ready_done (n fuel reloads : nat) :
  (forall k, (reloads <= k < reloads + n)%nat -> health k <> "healthy") ->
  health (reloads + n)%nat = "healthy" -> (n < fuel)%nat ->
  await_ready health reloads fuel = (polls n, Some (reloads + n)%nat).
Proof.
  revert fuel reloads. induction n as [|n IH]; intros fuel reloads Hbefore Hn Hfuel.
  - destruct fuel as [|fuel]; [lia|]. simpl.
    rewrite Nat.add_0_r in Hn. rewrite Hn. simpl.
    now rewrite Nat.add_0_r.
  - destruct fuel as [|fuel]; [lia|]. simpl.
    destruct (String.eqb_spec (health reloads) "healthy") as [Heq|_].
    + exfalso. apply (Hbefore reloads); [lia|exact Heq].
    + rewrite (IH fuel (S reloads)).
      * simpl. do 3 f_equal. lia.
      * intros k Hk. apply Hbefore. lia.
      * rewrite <- Hn. f_equal. lia.
      * lia.
Qed.

(** C3, amended: the wait polls the health every 0.1 s, reloading the
    instance each time, until it reads "healthy", and only then is the
    session opened and a customer processed; there is no deadline: while
    the engine is not healthy the run keeps polling, whatever the number
    of polls, and raises nothing. *)
Theorem await_ready_polls_until_healthy (customers : list customer) :
  (forall n fuel,
      (forall k, (k < n)%nat -> health k <> "healthy") ->
      health n = "healthy" -> (n < fuel)%nat ->
      await_ready health 0 fuel = (polls n, Some n)
      /\ exists rest,
           fst (run customers fuel)
           = EvStart :: polls n ++ [EvSleep 1; EvSessionEnter] ++ rest
           /\ snd (run customers fuel) <> Polling)
  /\ (forall fuel,
        (forall k, (k < fuel)%nat -> health k <> "healthy") ->
        run customers fuel = (EvStart :: polls fuel, Polling)).
Proof.
  split.
  - intros n fuel Hbefore Hn Hfuel.
    assert (await_ready health 0 fuel = (polls n, Some n)) as Hready.
    { apply (await_ready_done n fuel 0); [|exact Hn|exact Hfuel].
      intros k Hk. apply Hbefore. lia. }
    split; [exact Hready|].
    unfold calculate_trips. rewrite Hready. cbn [fst snd].
    destruct (snd (gathered (customers_completed customers) ∅)); cbn [fst snd].
    + eexists. split; [|discriminate].
      rewrite app_comm_cons, <- app_assoc. reflexivity.
    + eexists. split; [|discriminate].
      rewrite app_comm_cons, <- app_assoc. reflexivity.
  - intros fuel Hnever. unfold calculate_trips.
    rewrite (await_ready_pending fuel 0); [reflexivity|].
    intros k Hk. apply Hnever. lia.
Qed.

End BatchClaims.

(** ** The claims on the sample inputs *)

Section Instances.
Import Assignment ModeTable Trips Batch Demo.

(** Two customers and four pharmacies on a line. *)
Lemma assigned_pharmacy_among_three_nearest_witness :
  chosen_pharmacies axis_distance ph_locs draw cus_locs
  = Ok [2%positive; 4%positive]
  /\ Forall2
       (fun cus p => among_k_nearest 3 (distances axis_distance ph_locs cus) p)
       cus_locs [2%positive; 4%positive].
Proof.
  split.
  - vm_compute. reflexivity.
  - apply (assigned_pharmacy_among_three_nearest axis_distance ph_locs draw).
    vm_compute. reflexivity.
Defined.

(** An area with two pharmacies: both are candidates and one is chosen. *)
Lemma short_candidate_list_witness :
  List.length (closest two_pharmacies) = Nat.min 3 (List.length two_pharmacies)
  /\ ((List.length two_pharmacies < 3)%nat ->
      Permutation (closest two_pharmacies) two_pharmacies)
  /\ exists p, choose_pharmacy two_pharmacies 0.5 = Ok p
               /\ In p (map fst two_pharmacies).
Proof.
  apply (short_candidate_list two_pharmacies 0.5).
  - discriminate.
  - intros r [<-|[<-|[]]]; vm_compute; reflexivity.
  - split; vm_compute; [discriminate|reflexivity].
Defined.

(** An area with a single pharmacy, at the customer's own point: the
    pharmacy is the only candidate and the choice raises. *)
Lemma short_list_zero_distance_raises_witness :
  List.length (closest single_pharmacy) = Nat.min 3 (List.length single_pharmacy)
  /\ Permutation (closest single_pharmacy) single_pharmacy
  /\ choose_pharmacy single_pharmacy 0.5
     = Err (ValueError "weight vector may not include `inf` values")
  /\ forall p, choose_pharmacy single_pharmacy 0.5 <> Ok p.
Proof.
  apply (short_list_zero_distance_raises single_pharmacy 0.5 (1%positive, 0)).
  - vm_compute. lia.
  - intros r' H. vm_compute in H. destruct H as [<-|[]]. vm_compute. discriminate.
  - vm_compute. left. reflexivity.
  - reflexivity.
Defined.

(** A customer standing at pharmacy 1 gets the [ValueError]. *)
Lemma zero_distance_raises_witness :
  In (1%positive, 0) at_pharmacy
  /\ choose_pharmacy at_pharmacy 0.5
     = Err (ValueError "weight vector may not include `inf` values").
Proof.
  split.
  - vm_compute. left. reflexivity.
  - apply (zero_distance_raises at_pharmacy 0.5 (1%positive, 0)).
    + intros r' H. vm_compute in H.
      destruct H as [<-|[<-|[<-|[<-|[]]]]]; vm_compute; discriminate.
    + vm_compute. left. reflexivity.
    + reflexivity.
Defined.

(** Customer 7 has no route: its processing divides by zero and the batch
    with customer 8 returns nothing. *)
Lemma no_viable_mode_divides_by_zero_witness :
  process_customer no_route_for_7 (@rev request) evaluate pharmacies customer_7
  = Err ZeroDivisionError
  /\ (In customer_7 (rev customers) ->
      forall trips,
        snd (calculate_trips (healthy_after 2) no_route_for_7 (@rev request)
               evaluate pharmacies (@rev customer) customers 5)
        <> Returned trips).
Proof.
  apply (no_viable_mode_divides_by_zero (healthy_after 2) no_route_for_7
           (@rev request) evaluate pharmacies (@rev customer)
           customer_7 tasks_7 customers 5).
  - vm_compute. reflexivity.
  - repeat constructor; exists (mkResponse None); split; reflexivity.
Defined.

(** The bicycle request of customer 7. *)
Lemma requests_are_round_trips_witness :
  exists ph_loc,
    pharmacies !! chosen_pharmacy customer_7 = Some ph_loc
    /\ locations (params 7%Z [mkLocation 48.13 11.57; mkLocation 48.14 11.58;
                              mkLocation 48.13 11.57] bicycle)
       = [location_of (cus_loc customer_7); location_of ph_loc;
          location_of (cus_loc customer_7)]
    /\ locations (params 7%Z [mkLocation 48.13 11.57; mkLocation 48.14 11.58;
                              mkLocation 48.13 11.57] bicycle) !! 0%nat
       = locations (params 7%Z [mkLocation 48.13 11.57; mkLocation 48.14 11.58;
                                mkLocation 48.13 11.57] bicycle) !! 2%nat
    /\ id (params 7%Z [mkLocation 48.13 11.57; mkLocation 48.14 11.58;
                       mkLocation 48.13 11.57] bicycle)
       = cus_index customer_7.
Proof.
  apply (requests_are_round_trips pharmacies customer_7 tasks_7).
  - vm_compute. reflexivity.
  - simpl. right. left. reflexivity.
Defined.



(** An engine healthy after two reloads is polled twice. *)
Lemma await_ready_polls_until_healthy_witness :
  await_ready (healthy_after 2) 0 5 = (polls 2, Some 2%nat)
  /\ exists rest,
       fst (calculate_trips (healthy_after 2) routed (@rev request) evaluate
              pharmacies (@rev customer) customers 5)
       = EvStart :: polls 2 ++ [EvSleep 1; EvSessionEnter] ++ rest
       /\ snd (calculate_trips (healthy_after 2) routed (@rev request) evaluate
                 pharmacies (@rev customer) customers 5) <> Polling.
Proof.
  apply (proj1 (await_ready_polls_until_healthy (healthy_after 2) routed
                  (@rev request) evaluate pharmacies (@rev customer) customers)).
  - intros k Hk. do 2 (destruct k as [|k]; [vm_compute; discriminate|]). lia.
  - reflexivity.
  - lia.
Defined.

(** C3 as stated fails: with an engine that never gets healthy the run is
    still polling after any number of polls; no deadline ends the wait and
    no [ServiceUnavailable] is raised. *)
Lemma never_healthy_polls_forever :
  calculate_trips never_healthy routed (@rev request) evaluate pharmacies
    (@rev customer) customers 3
  = ([EvStart; EvSleep 0.1; EvReload; EvSleep 0.1; EvReload; EvSleep 0.1;
      EvReload], Polling)
  /\ ~ (exists deadline,
          snd (calculate_trips never_healthy routed (@rev request) evaluate
                 pharmacies (@rev customer) customers deadline) <> Polling).
Proof.
  split; [vm_compute; reflexivity|].
  intros [deadline H]. apply H. unfold calculate_trips.
  rewrite (await_ready_pending never_healthy deadline 0); [reflexivity|].
  intros k _. discriminate.
Qed.

(** The shares the notebook would read normalise to rows that sum to 1. *)
Lemma probs_rows_sum_to_one_witness :
  exists r, In (Some r) (probs raw_classes) /\ row_sum r == 1.
Proof.
  eexists. split.
  - left. vm_compute. reflexivity.
  - apply (proj1 probs_rows_sum_to_one raw_classes). left. reflexivity.
Defined.


(** The bicycle trip of customer 7 is the engine's answer to the bicycle
    request. *)
Lemma process_customer_returns_fetched_witness :
  process_customer routed (@rev request) evaluate pharmacies customer_7
  = Ok (7%Z, trip_7)
  /\ 7%Z = cus_index customer_7
  /\ exists ts r t0,
       tasks pharmacies customer_7 = Ok ts /\ In r (rev ts)
       /\ routed r = Ok (mkResponse (Some t0))
       /\ trip_7 = set_mot t0 (costing r).
Proof.
  split.
  - vm_compute. reflexivity.
  - apply (process_customer_returns_fetched routed (@rev request) evaluate
             pharmacies customer_7 7%Z trip_7).
    vm_compute. reflexivity.
Defined.

End Instances.

(** * Part III: further properties of the code *)

(** ** The assignment as a whole *)

Section AssignmentMore.
Import Assignment Trips Pipeline.

Lemma among_nearest_label (k : nat) (dists : Series) (p : label) :
  among_k_nearest k dists p -> In p (map fst dists).
Proof.
  intros (d & Hin & _). now apply (in_map fst) in Hin.
Qed.

Lemma distances_labels distance (ph_locs : list (label * Point)) (cus : Point) :
  map fst (distances distance ph_locs cus) = map fst ph_locs.
Proof.
  unfold distances. rewrite map_map. reflexivity.
Qed.

Lemma chosen_pharmacies_from_labels distance ph_locs draw cus_locs :
  forall i ps,
  chosen_pharmacies_from distance ph_locs draw i cus_locs = Ok ps ->
  List.length ps = List.length cus_locs
  /\ Forall (fun p => In p (map fst ph_locs)) ps.
Proof.
  induction cus_locs as [|cus rest IH]; intros i ps; simpl.
  - intros [= <-]. split; [reflexivity|constructor].
  - destruct (choose_pharmacy _ (draw i)) as [p|e] eqn:Ep; simpl; [|discriminate].
    destruct (chosen_pharmacies_from _ _ _ (S i) rest) as [ps'|e] eqn:Er;
      simpl; [|discriminate].
    intros [= <-]. destruct (IH _ _ Er) as [Hlen Hall]. split.
    + simpl. now rewrite Hlen.
    + constructor; [|exact Hall].
      apply choose_pharmacy_nearest, among_nearest_label in Ep.
      now rewrite distances_labels in Ep.
Qed.

(** X2: for a frame of pharmacies whose index labels are distinct, the
    customers that the assignment cell hands on keep their id and
    location, and each is assigned a label of the pharmacies' frame, so
    [process_customer] finds the pharmacy's geometry and builds its three
    requests: the lookup never raises [KeyError]. *)
Theorem assigned_customers_have_tasks (to_crs : Point -> Point)
    (distance : Point -> Point -> Q) (pharmacies : list (label * Point))
    (customers : list (cus_id * Point)) (draw : nat -> Q)
    (cs : list customer) :
  NoDup (map fst pharmacies) ->
  assign to_crs distance pharmacies customers draw = Ok cs ->
  map cus_index cs = map fst customers
  /\ map cus_loc cs = map snd customers
  /\ Forall (fun cus =>
               exists ts, tasks (geometry_of pharmacies) cus = Ok ts
                          /\ List.length ts = 3%nat
                          /\ Forall (fun r => id r = cus_index cus) ts) cs.
Proof.
  intros _. unfold assign.
  destruct (chosen_pharmacies _ _ _ _) as [ps|e] eqn:Hps; simpl; [|discriminate].
  intros [= <-].
  apply chosen_pharmacies_from_labels in Hps as [Hlen Hall].
  rewrite length_map in Hlen. rewrite map_map in Hall. simpl in Hall.
  revert ps Hlen Hall.
  induction customers as [|c rest IH]; intros [|p ps] Hlen Hall;
    try discriminate; simpl.
  - repeat split; constructor.
  - apply Forall_cons in Hall as [Hp Hall].
    destruct (IH ps) as (Hi & Hl & Ht); [simpl in Hlen; lia|exact Hall|].
    rewrite Hi, Hl. repeat split.
    constructor; [|exact Ht].
    assert (is_Some (geometry_of pharmacies !! p)) as [ph_loc Hph].
    { unfold geometry_of. apply not_eq_None_Some. intros Hnone.
      apply not_elem_of_list_to_map in Hnone.
      apply Hnone, list_elem_of_In. exact Hp. }
    unfold tasks. simpl. rewrite Hph. eexists. split; [reflexivity|].
    split; [reflexivity|]. repeat constructor.
Qed.

Lemma positive_or_not (s : Series) :
  Forall (fun r => 0 < snd r) s \/ exists a, In a s /\ snd a <= 0.
Proof.
  induction s as [|r s [IH|(a & Ha & Hle)]].
  - left. constructor.
  - destruct (Qlt_le_dec 0 (snd r)) as [Hpos|Hle].
    + left. now constructor.
    + right. exists r. split; [now left|exact Hle].
  - right. exists a. split; [now right|exact Hle].
Qed.

(** X3: for distances that are not negative and a draw in [0, 1) the
    choice of a pharmacy fails in two ways only, both a [ValueError] of
    [sample]: no pharmacy at all (the weights sum to zero) or a pharmacy
    at distance zero (a weight is [inf]); otherwise it returns one of the
    candidates, and it never raises [IndexError]. *)
Theorem choose_pharmacy_outcomes (dists : Series) (u : Q) :
  (forall r, In r dists -> 0 <= snd r) -> 0 <= u < 1 ->
  match choose_pharmacy dists u with
  | Ok p =>
      dists <> [] /\ (forall r, In r (closest dists) -> 0 < snd r)
      /\ In p (map fst (closest dists))
  | Err e =>
      (dists = []
       /\ e = ValueError "Invalid weights: weights sum to zero")
      \/ ((exists r, In r dists /\ snd r == 0)
          /\ e = ValueError "weight vector may not include `inf` values")
  end.
Proof.
  intros Hnn [_ Hu].
  assert (dists = [] \/ dists <> []) as [->|Hne]
    by (destruct dists; [now left|right; discriminate]).
  { left. split; reflexivity. }
  destruct (positive_or_not (closest dists)) as [Hpos|(a & Ha & Hle)].
  - destruct (sample_positive (closest dists) u) as (r & Hr & Hin);
      [now apply closest_nonempty|exact Hpos|exact Hu|].
    unfold choose_pharmacy. rewrite Hr. cbn [mbind result_bind].
    split; [exact Hne|]. split.
    + intros r' Hr'. rewrite List.Forall_forall in Hpos. now apply Hpos.
    + now apply in_map.
  - assert (snd a == 0) as Hz.
    { pose proof (Hnn a (closest_In _ _ Ha)). lra. }
    unfold choose_pharmacy, sample, preprocess_weights.
    rewrite (finite_weights_zero _ a Ha Hz). cbn [mbind result_bind].
    right. split; [|reflexivity].
    exists a. split; [now apply closest_In|exact Hz].
Qed.

End AssignmentMore.

(** ** The nearest pharmacy is favoured *)

Section NearestFavoured.
Import Assignment.

Lemma inverse_antitone (d0 d : Q) : 0 < d0 -> d0 <= d -> 1 / d <= 1 / d0.
Proof.
  intros H0 Hle. unfold Qdiv. rewrite !Qmult_1_l.
  apply Qle_shift_inv_r; [lra|].
  rewrite Qmult_comm. apply Qle_shift_div_l; [exact H0|]. lra.
Qed.

Lemma Qsum_le_bound (l : list Q) (b : Q) :
  Forall (fun q => q <= b) l ->
  Qsum l <= inject_Z (Z.of_nat (List.length l)) * b.
Proof.
  induction 1 as [|q l Hq _ IH].
  - apply Qle_lteq. right. simpl. ring.
  - simpl List.length. rewrite Nat2Z.inj_succ. unfold Z.succ.
    rewrite inject_Z_plus. change (inject_Z 1) with 1. simpl Qsum.
    assert ((inject_Z (Z.of_nat (List.length l)) + 1) * b
            == inject_Z (Z.of_nat (List.length l)) * b + b) as -> by ring.
    lra.
Qed.

(** The first weight of a sorted series of positive distances is at least
    a third of the sum of up to three weights. *)
Lemma first_weight_third (a : label * Q) (rest : Series) :
  0 < snd a -> Forall (fun r => snd a <= snd r) rest ->
  (List.length rest <= 2)%nat ->
  Qsum (map (fun r : label * Q => 1 / snd r) (a :: rest)) <= 3 * (1 / snd a).
Proof.
  intros Ha Hrest Hlen.
  assert (Forall (fun q => q <= 1 / snd a)
                 (map (fun r : label * Q => 1 / snd r) (a :: rest))) as Hall.
  { constructor; [lra|]. apply List.Forall_map.
    eapply Forall_impl; [exact Hrest|]. intros r Hr.
    now apply inverse_antitone. }
  apply Qsum_le_bound in Hall. rewrite length_map in Hall.
  assert (0 < 1 / snd a) as Hw.
  { unfold Qdiv. rewrite Qmult_1_l. now apply Qinv_lt_0_compat. }
  assert (inject_Z (Z.of_nat (List.length (a :: rest))) <= 3) as Hn.
  { change 3 with (inject_Z 3). rewrite <- Zle_Qle. simpl List.length. lia. }
  assert (inject_Z (Z.of_nat (List.length (a :: rest))) * (1 / snd a)
          <= 3 * (1 / snd a)) as Hb.
  { apply Qmult_le_compat_r; [exact Hn|lra]. }
  lra.
Qed.

Lemma cdf_head (p0 : Q) (p' : list Q) :
  exists c', cdf (p0 :: p') = (0 + p0) / List.last (cumsum (p0 :: p')) 0 :: c'.
Proof.
  unfold cdf, cumsum. simpl cumsum_from. eexists. reflexivity.
Qed.

Lemma searchsorted_first (x : Q) (c : list Q) (u : Q) :
  u < x -> searchsorted_right (x :: c) u = 0%nat.
Proof.
  intros H. simpl. apply Qle_bool_false_iff in H. now rewrite H.
Qed.

(** X4: among candidates at positive distances the nearest one carries
    at least a third of the weight, so every draw below 1/3 assigns the
    customer a pharmacy at the least distance of all. *)
Theorem small_draw_picks_nearest (dists : Series) (u : Q) :
  dists <> [] -> (forall r, In r dists -> 0 < snd r) ->
  0 <= u -> u < 1 / 3 ->
  exists p d, choose_pharmacy dists u = Ok p
              /\ In (p, d) dists
              /\ forall r, In r dists -> d <= snd r.
Proof.
  intros Hne Hpos Hu0 Hu.
  assert (exists r0, In r0 dists) as [r0 Hr0]
    by (destruct dists as [|r0 ?]; [congruence|exists r0; now left]).
  destruct (sort_values_head_min dists r0 Hr0) as (a & rest0 & Hs & _).
  assert (In a dists) as Ha.
  { apply (Permutation_in _ (sort_values_perm dists)). rewrite Hs. now left. }
  assert (forall r, In r dists -> snd a <= snd r) as Hmin.
  { intros r Hr. destruct (sort_values_head_min dists r Hr) as (a' & rest' & Hs' & Hle).
    rewrite Hs in Hs'. injection Hs' as <- _. exact Hle. }
  assert (closest dists = a :: take 2 rest0) as Hc
    by (unfold closest, head; rewrite Hs; reflexivity).
  pose proof (closest_positive dists Hpos) as Hcpos.
  exists (fst a), (snd a). split; [|split; [now destruct a|exact Hmin]].
  unfold choose_pharmacy, sample, preprocess_weights.
  rewrite (finite_weights_positive _ Hcpos).
  pose proof (inverse_positive _ Hcpos) as Hw.
  rewrite (existsb_negative_false _ Hw).
  rewrite Hc in *.
  set (qs := map (fun r : label * Q => 1 / snd r) (a :: take 2 rest0)) in *.
  assert (0 < Qsum qs) as Htot by (apply Qsum_pos; [discriminate|exact Hw]).
  assert (Qeq_bool (Qsum qs) 0 = false) as ->
    by (apply Qeq_bool_false_iff; lra).
  cbn [mbind result_bind].
  assert (Qsum qs <= 3 * (1 / snd a)) as Hthird.
  { apply first_weight_third.
    - now apply Hpos.
    - apply List.Forall_forall. intros r Hr. apply Hmin.
      apply closest_In. rewrite Hc. now right.
    - rewrite length_take. lia. }
  set (p := map (fun q => q / Qsum qs) qs).
  assert (Qsum p == 1) as Hp1.
  { subst p. rewrite Qsum_div. field. lra. }
  destruct (cdf_head (1 / snd a / Qsum qs)
              (map (fun q => q / Qsum qs)
                   (map (fun r : label * Q => 1 / snd r) (take 2 rest0))))
    as [c' Hcdf].
  change (cdf p = (0 + 1 / snd a / Qsum qs) / List.last (cumsum p) 0 :: c')
    in Hcdf.
  rewrite Hcdf, searchsorted_first; [reflexivity|].
  assert (List.last (cumsum p) 0 == 1) as ->.
  { unfold cumsum. rewrite cumsum_from_last by discriminate. lra. }
  assert (0 < 1 / snd a) as Hw0.
  { unfold Qdiv. rewrite Qmult_1_l. apply Qinv_lt_0_compat. now apply Hpos. }
  pose proof (Hpos a Ha) as Hapos.
  assert ((0 + 1 / snd a / Qsum qs) / 1 == 1 / snd a / Qsum qs) as ->
    by (field; repeat split; lra).
  apply Qlt_shift_div_l; [exact Htot|].
  assert (u * Qsum qs < 1 / 3 * Qsum qs) as Hlt.
  { apply Qmult_lt_compat_r; [exact Htot|exact Hu]. }
  clear - Hlt Hthird. change (1 / 3) with (1 # 3) in Hlt.
  generalize dependent (u * Qsum qs). generalize dependent (1 / snd a).
  generalize dependent (Qsum qs). intros W w0 Hthird uW HuW. lra.
Qed.

End NearestFavoured.

(** ** The requests of one customer *)

Section TripsMore.
Import Trips Pipeline.

Variable session : request -> result response.
Variable as_completed : list request -> list request.
Variable evaluate_mode_of_transport : Q -> list mot -> result mot.
Variable pharmacies : gmap Assignment.label Assignment.Point.

Lemma dict_set_fresh {V : Type} (k : mot) (v : V) (d : list (mot * V)) :
  ~ In k (keys d) -> dict_set k v d = d ++ [(k, v)].
Proof.
  induction d as [|[k' v'] d IH]; simpl; [reflexivity|].
  intros Hk. destruct (decide (k = k')) as [->|_]; [tauto|].
  rewrite IH by tauto. reflexivity.
Qed.

Lemma NoDup_mots : NoDup mots.
Proof. apply (bool_decide_unpack _). reflexivity. Qed.

Lemma collect_fetched (order : list request) :
  forall acc,
  NoDup (map costing order) ->
  (forall r, In r order -> ~ In (costing r) (keys acc)) ->
  Forall (fun r => exists resp, session r = Ok resp) order ->
  collect session order acc = Ok (acc ++ fetched session order).
Proof.
  induction order as [|r order IH]; intros acc Hnd Hfresh Hok; simpl.
  - now rewrite app_nil_r.
  - apply NoDup_cons in Hnd as [Hr Hnd].
    apply Forall_cons in Hok as [[resp Hresp] Hok].
    unfold fetch_trip, fetched. rewrite Hresp. simpl.
    destruct (response_trip resp) as [t|]; simpl.
    + rewrite dict_set_fresh by (apply Hfresh; now left).
      rewrite IH; [now rewrite <- app_assoc|exact Hnd| |exact Hok].
      intros r' Hr' Hin. unfold keys in Hin. rewrite map_app in Hin.
      apply in_app_or in Hin as [Hin|[Hin|[]]].
      * apply (Hfresh r'); [now right|exact Hin].
      * simpl in Hin. apply Hr. rewrite Hin.
        apply list_elem_of_In. now apply in_map.
    + apply IH; [exact Hnd| |exact Hok].
      intros r' Hr'. apply Hfresh. now right.
Qed.

Lemma Qsum_perm (l l' : list Q) : Permutation l l' -> Qsum l == Qsum l'.
Proof.
  induction 1 as [|x l l' _ IH|x y l|l l' l'' _ IH1 _ IH2]; simpl.
  - reflexivity.
  - now rewrite IH.
  - ring.
  - now rewrite IH1.
Qed.

Lemma avg_length_perm (res1 res2 : list (mot * trip)) :
  Permutation res1 res2 ->
  match avg_length res1, avg_length res2 with
  | Ok a1, Ok a2 => a1 == a2
  | Err e1, Err e2 => e1 = e2
  | _, _ => False
  end.
Proof.
  intros Hperm. unfold avg_length.
  rewrite <- (Permutation_length Hperm).
  destruct (decide (List.length res1 = 0%nat)); [reflexivity|].
  rewrite (Qsum_perm _ _ (Permutation_map
             (fun mt => length (trip_summary (snd mt))) Hperm)).
  reflexivity.
Qed.

(** X5: when every request of a customer is answered, the order in which
    the three answers complete changes neither which modes are stored nor
    the average length: the stored trips of two orders are permutations
    of each other and the averages agree. *)
Theorem completion_order_irrelevant (cus : customer) (ts order1 order2 : list request) :
  tasks pharmacies cus = Ok ts ->
  Permutation order1 ts -> Permutation order2 ts ->
  Forall (fun r => exists resp, session r = Ok resp) ts ->
  exists res1 res2,
    collect session order1 [] = Ok res1
    /\ collect session order2 [] = Ok res2
    /\ Permutation res1 res2
    /\ match avg_length res1, avg_length res2 with
       | Ok a1, Ok a2 => a1 == a2
       | Err e1, Err e2 => e1 = e2
       | _, _ => False
       end.
Proof.
  intros Hts H1 H2 Hok.
  assert (forall order, Permutation order ts ->
            collect session order [] = Ok (fetched session order)) as Hcollect.
  { intros order Hperm. apply (collect_fetched order []).
    - rewrite (Permutation_map costing Hperm), (tasks_modes _ _ _ Hts).
      exact NoDup_mots.
    - intros r _ [].
    - eapply Permutation_Forall; [symmetry; exact Hperm|exact Hok]. }
  exists (fetched session order1), (fetched session order2).
  assert (Permutation (fetched session order1) (fetched session order2)) as Hperm.
  { unfold fetched. apply omap_Permutation. now rewrite H1, H2. }
  repeat split; [now apply Hcollect..|exact Hperm|now apply avg_length_perm].
Qed.

Lemma collect_error (before after : list request) (r : request) (e : exn) :
  forall acc,
  Forall (fun r' => exists resp, session r' = Ok resp) before ->
  session r = Err e ->
  collect session (before ++ r :: after) acc = Err e.
Proof.
  induction before as [|r' before IH]; intros acc Hok Hr; simpl.
  - unfold fetch_trip. now rewrite Hr.
  - apply Forall_cons in Hok as [[resp Hresp] Hok].
    unfold fetch_trip. rewrite Hresp. simpl.
    destruct (response_trip resp); now apply IH.
Qed.

(** X6: the requests of a customer are not isolated from each other: the
    first awaited request that raises, in the order of completion, ends
    [process_customer] with that exception, whatever the other modes
    answered. *)
Theorem fetch_error_fails_customer (cus : customer) (ts before after : list request)
    (r : request) (e : exn) :
  tasks pharmacies cus = Ok ts ->
  as_completed ts = before ++ r :: after ->
  Forall (fun r' => exists resp, session r' = Ok resp) before ->
  session r = Err e ->
  process_customer session as_completed evaluate_mode_of_transport pharmacies cus
  = Err e.
Proof.
  intros Hts Horder Hok Hr. unfold process_customer.
  rewrite Hts. cbn [mbind result_bind]. rewrite Horder.
  now rewrite (collect_error before after r e [] Hok Hr).
Qed.

Lemma process_customer_index (cus : customer) (i : cus_id) (t : trip) :
  process_customer session as_completed evaluate_mode_of_transport pharmacies cus
  = Ok (i, t) ->
  i = cus_index cus /\ is_Some (trip_mot t).
Proof.
  unfold process_customer.
  destruct (tasks pharmacies cus) as [ts|e]; simpl; [|discriminate].
  destruct (collect session (as_completed ts) []) as [results|e]; simpl;
    [|discriminate].
  destruct (avg_length results) as [avg|e]; simpl; [|discriminate].
  destruct (evaluate_mode_of_transport avg (keys results)) as [m|e]; simpl;
    [|discriminate].
  destruct (dict_get m results) as [t0|e]; simpl; [|discriminate].
  intros [= <- <-]. split; [reflexivity|]. simpl. eauto.
Qed.

End TripsMore.

(** ** The trips of a batch *)

Section BatchMore.
Import Trips Batch Pipeline.

Variable health : nat -> string.
Variable session : request -> result response.
Variable as_completed : list request -> list request.
Variable evaluate_mode_of_transport : Q -> list mot -> result mot.
Variable pharmacies : gmap Assignment.label Assignment.Point.
Variable customers_completed : list customer -> list customer.

Local Abbreviation run := (calculate_trips health session as_completed
                             evaluate_mode_of_transport pharmacies
                             customers_completed).
Local Abbreviation gathered := (gather session as_completed
                                  evaluate_mode_of_transport pharmacies).
Local Abbreviation processed := (process_customer session as_completed
                                   evaluate_mode_of_transport pharmacies).

Lemma gather_ok (completed : list customer) :
  forall trips0 trips,
  snd (gathered completed trips0) = Ok trips ->
  fst (gathered completed trips0) = trip_events completed
  /\ dom trips = dom trips0 ∪ list_to_set (map cus_index completed)
  /\ (forall i t, trips !! i = Some t ->
        trips0 !! i = Some t \/ is_Some (trip_mot t)).
Proof.
  induction completed as [|cus rest IH]; intros trips0 trips; simpl.
  - intros [= <-]. split; [reflexivity|]. split; [|auto].
    now rewrite (right_id_L ∅ (∪)).
  - destruct (processed cus) as [[i t]|e] eqn:Hcus; simpl; [|discriminate].
    apply process_customer_index in Hcus as [-> Hmot].
    intros Hrest. destruct (IH _ _ Hrest) as (Hev & Hdom & Hin).
    split; [now rewrite Hev|]. split.
    + rewrite Hdom, dom_insert_L.
      change (list_to_set (map cus_index (cus :: rest)))
        with ({[cus_index cus]} ∪ list_to_set (map cus_index rest) : gset cus_id).
      rewrite (comm_L (∪) {[cus_index cus]} (dom trips0)).
      now rewrite <- (assoc_L (∪)).
    + intros j t' Hj. destruct (Hin j t' Hj) as [H0|H0]; [|now right].
      destruct (decide (cus_index cus = j)) as [<-|Hne].
      * rewrite lookup_insert_eq in H0. injection H0 as <-. now right.
      * rewrite lookup_insert_ne in H0 by exact Hne. now left.
Qed.


Lemma await_ready_trace (fuel : nat) :
  forall reloads k,
  snd (await_ready health reloads fuel) = Some k ->
  fst (await_ready health reloads fuel) = polls (k - reloads)
  /\ (reloads <= k)%nat /\ health k = "healthy".
Proof.
  induction fuel as [|fuel IH]; intros reloads k; simpl; [discriminate|].
  destruct (String.eqb_spec (health reloads) "healthy") as [Heq|_]; simpl.
  - intros [= <-]. rewrite Nat.sub_diag. auto.
  - intros Hk. destruct (IH _ _ Hk) as (Hev & Hle & Hh).
    rewrite Hev. replace (k - reloads)%nat with (S (k - S reloads)) by lia.
    repeat split; [lia|exact Hh].
Qed.

(** X7: when the batch returns, its dict holds a trip for every customer
    and for nobody else, each trip marked with its mode, one entry per
    customer when the ids are distinct; the trips were merged in the order
    of completion, between entering and leaving the session. *)
Theorem returned_trips_cover_customers (customers : list customer) (fuel : nat)
    (trips : gmap cus_id trip) :
  Permutation (customers_completed customers) customers ->
  snd (run customers fuel) = Returned trips ->
  dom trips = list_to_set (map cus_index customers)
  /\ (forall i t, trips !! i = Some t -> is_Some (trip_mot t))
  /\ (NoDup (map cus_index customers) -> size trips = List.length customers)
  /\ exists n,
       fst (run customers fuel)
       = (EvStart :: polls n ++ [EvSleep 1; EvSessionEnter])
         ++ trip_events (customers_completed customers)
         ++ [EvSessionExit; EvStop].
Proof.
  intros Hperm. unfold calculate_trips.
  destruct (snd (await_ready health 0 fuel)) as [n|] eqn:Hready;
    cbn [fst snd]; [|discriminate].
  destruct (snd (gathered (customers_completed customers) ∅)) as [trips'|e]
    eqn:Hbatch; cbn [fst snd]; [|discriminate].
  intros [= <-]. destruct (gather_ok _ _ _ Hbatch) as (Hev & Hdom & Hin).
  assert (dom trips' = list_to_set (map cus_index customers)) as Hdom'.
  { rewrite Hdom, dom_empty_L, (left_id_L ∅ (∪)).
    apply set_eq. intros i. rewrite !elem_of_list_to_set.
    now rewrite (Permutation_map cus_index Hperm). }
  split; [exact Hdom'|]. split; [|split].
  - intros i t Hi. destruct (Hin i t Hi) as [H0|H0]; [|exact H0].
    rewrite lookup_empty in H0. discriminate.
  - intros Hnd. rewrite <- size_dom, Hdom', size_list_to_set by exact Hnd.
    apply length_map.
  - exists n. apply await_ready_trace in Hready as (Hpolls & _ & _).
    rewrite Hev, Hpolls, Nat.sub_0_r. reflexivity.
Qed.


End BatchMore.

(** ** The totals per mode *)

Section TotalsMore.
Import Pipeline.




End TotalsMore.

(** ** Rows of probabilities *)

Section RowsMore.
Import ModeTable.

Lemma share_of_total (x s : Q) : 0 <= x -> x <= s -> 0 < s -> 0 <= x / s <= 1.
Proof.
  intros Hx Hle Hs. split.
  - apply Qle_shift_div_l; [exact Hs|]. lra.
  - apply Qle_shift_div_r; [exact Hs|]. lra.
Qed.

(** X10: from shares that are not negative the normalisation yields
    probabilities: every entry of a row lies between 0 and 1, and the
    row exists whenever some share of the distance class is positive; the
    row is missing (NaN) only when every share of the class is zero. *)
Theorem normalized_rows_are_probabilities (raw : raw_row) :
  0 <= car_driver raw -> 0 <= car_passenger raw -> 0 <= motorcycle raw ->
  0 <= taxi raw -> 0 <= raw_bicycle raw -> 0 <= raw_pedestrian raw ->
  match normalize (combine raw) with
  | Some r =>
      0 < row_sum (combine raw) /\ forall m, 0 <= prob r m <= 1
  | None =>
      car_driver raw == 0 /\ car_passenger raw == 0 /\ motorcycle raw == 0
      /\ taxi raw == 0 /\ raw_bicycle raw == 0 /\ raw_pedestrian raw == 0
  end.
Proof.
  intros H1 H2 H3 H4 H5 H6.
  destruct (normalize (combine raw)) as [r|] eqn:Hn.
  - unfold normalize in Hn.
    destruct (Qeq_bool (row_sum (combine raw)) 0) eqn:E; [discriminate|].
    apply Qeq_bool_false_iff in E. injection Hn as <-.
    assert (0 < row_sum (combine raw)) as Hs.
    { unfold row_sum, combine in *. simpl in *. lra. }
    split; [exact Hs|].
    intros m. destruct m; simpl; apply share_of_total; trivial;
      unfold row_sum, combine; simpl; lra.
  - unfold normalize in Hn.
    destruct (Qeq_bool (row_sum (combine raw)) 0) eqn:E; [|discriminate].
    apply Qeq_bool_iff in E. unfold row_sum, combine in E. simpl in E.
    repeat split; lra.
Qed.

End RowsMore.

(** ** Rings of linestrings *)

Section RingMore.
Import Ring.

Context {coord : Type} `{EqDecision coord}.

Lemma starts_ok (linestrings : list (list coord)) (ss : list coord) :
  starts linestrings = Ok ss <-> Forall2 (fun ls p => head ls = Some p) linestrings ss.
Proof.
  revert ss. induction linestrings as [|ls rest IH]; intros ss; simpl.
  - split; [intros [= <-]; constructor|]. intros H. now inversion H.
  - destruct ls as [|p ls]; simpl.
    + split; [discriminate|]. intros H. inversion H. discriminate.
    + destruct (starts rest) as [ps|e]; simpl.
      * split.
        -- intros [= <-]. constructor; [reflexivity|]. now apply IH.
        -- intros H. inversion H as [|? q ? ps' Hq Hrest]; subst.
           injection Hq as <-. apply IH in Hrest. now injection Hrest as <-.
      * split; [discriminate|]. intros H.
        inversion H as [|? q ? ps' Hq Hrest]; subst.
        apply IH in Hrest. discriminate.
Qed.

Lemma starts_error (linestrings : list (list coord)) (e : exn) :
  starts linestrings = Err e -> e = IndexError /\ In [] linestrings.
Proof.
  induction linestrings as [|ls rest IH]; simpl; [discriminate|].
  destruct ls as [|p ls]; simpl.
  - intros [= <-]. split; [reflexivity|now left].
  - destruct (starts rest) as [ps|e']; simpl; [discriminate|].
    intros [= <-]. destruct (IH eq_refl) as [-> Hin]. auto.
Qed.

Lemma connected_all (p : coord) (points : list coord) :
  connected (p :: points) = true <-> Forall (fun q => q = p) points.
Proof.
  revert p. induction points as [|q points IH]; intros p.
  - simpl. split; [constructor|reflexivity].
  - change (connected (p :: q :: points))
      with (bool_decide (p = q) && connected (q :: points)).
    rewrite andb_true_iff, bool_decide_eq_true, IH. split.
    + intros [-> Hall]. constructor; [reflexivity|exact Hall].
    + intros Hall. apply Forall_cons in Hall as [-> Hall]. auto.
Qed.

Lemma last_item_Some {A : Type} (l : list A) (x : A) :
  last l = Some x -> last_item l = Ok x.
Proof. unfold last_item. now intros ->. Qed.

Lemma last_item_None {A : Type} (l : list A) :
  last l = None -> last_item l = Err IndexError.
Proof. unfold last_item. now intros ->. Qed.

Lemma heads_same (lss : list (list coord)) (ss : list coord) (p : coord) :
  Forall2 (fun ls q => head ls = Some q) lss ss ->
  Forall (fun q => q = p) ss <-> Forall (fun ls => head ls = Some p) lss.
Proof.
  induction 1 as [|ls q lss ss Hq _ IH].
  - split; constructor.
  - rewrite !Forall_cons, IH. split; intros [H1 H2]; split; congruence.
Qed.

Lemma is_closed_ring_value (ls0 : list coord) (rest : list (list coord))
    (p0 : coord) (ps : list coord) (e : coord) :
  starts (ls0 :: rest) = Ok (p0 :: ps) ->
  (last (ls0 :: rest) ≫= last) = Some e ->
  is_closed_ring (ls0 :: rest)
  = Ok (bool_decide (p0 = e) && connected (p0 :: ps ++ [e])).
Proof.
  intros Hs Hl. unfold is_closed_ring. rewrite Hs. cbn [mbind result_bind].
  destruct (last (ls0 :: rest)) as [ls|] eqn:Hls; [|discriminate].
  cbn [mbind option_bind] in Hl.
  rewrite (last_item_Some _ _ Hls). cbn [mbind result_bind].
  rewrite (last_item_Some _ _ Hl). cbn [mbind result_bind first_item app].
  rewrite (last_item_Some (p0 :: ps ++ [e]) e)
    by (rewrite app_comm_cons; apply last_snoc).
  reflexivity.
Qed.

(** X11: [is_closed_ring] answers [True] exactly when all linestrings
    start at one and the same point and the last linestring ends there; so
    it answers [False] for every chain in which two linestrings start at
    different points, a ring walked segment by segment included.  It
    raises [IndexError], and nothing else, for an empty list and for a
    linestring without coordinates. *)
Theorem is_closed_ring_accepts (linestrings : list (list coord)) :
  (is_closed_ring linestrings = Ok true
   <-> linestrings <> []
       /\ exists p, Forall (fun ls => head ls = Some p) linestrings
                    /\ (last linestrings ≫= last) = Some p)
  /\ (forall ls1 ls2 p1 p2,
        In ls1 linestrings -> In ls2 linestrings ->
        head ls1 = Some p1 -> head ls2 = Some p2 -> p1 <> p2 ->
        is_closed_ring linestrings <> Ok true)
  /\ (forall e, is_closed_ring linestrings = Err e ->
        e = IndexError /\ (linestrings = [] \/ In [] linestrings)).
Proof.
  assert (is_closed_ring linestrings = Ok true
          <-> linestrings <> []
              /\ exists p, Forall (fun ls => head ls = Some p) linestrings
                           /\ (last linestrings ≫= last) = Some p) as Hiff.
  { destruct linestrings as [|ls0 rest].
    { split; [discriminate|]. intros [Hne _]. congruence. }
    destruct (starts (ls0 :: rest)) as [ss|err] eqn:Hs.
    2:{ split.
        - unfold is_closed_ring. rewrite Hs. discriminate.
        - intros (_ & p & Hall & _). exfalso.
          apply starts_error in Hs as [_ Hin].
          rewrite List.Forall_forall in Hall. specialize (Hall _ Hin).
          discriminate. }
    pose proof Hs as Hheads. apply starts_ok in Hheads.
    destruct ss as [|p0 ps]; [inversion Hheads|].
    destruct (last (ls0 :: rest) ≫= last) as [e|] eqn:Hl.
    2:{ split.
        - unfold is_closed_ring. rewrite Hs. cbn [mbind result_bind].
          destruct (last (ls0 :: rest)) as [ls|] eqn:Hls.
          + cbn [mbind option_bind] in Hl.
            rewrite (last_item_Some _ _ Hls). cbn [mbind result_bind].
            rewrite (last_item_None _ Hl). discriminate.
          + rewrite (last_item_None _ Hls). discriminate.
        - intros (_ & p & _ & Hp). discriminate. }
    rewrite (is_closed_ring_value _ _ _ _ _ Hs Hl).
    split.
    - intros [= Hb]. apply andb_true_iff in Hb as [Hc Hconn].
      apply bool_decide_eq_true in Hc as <-.
      apply connected_all, Forall_app in Hconn as [Hps _].
      split; [discriminate|]. exists p0. split; [|reflexivity].
      apply (heads_same _ _ p0 Hheads). now constructor.
    - intros (_ & p & Hall & [= <-]). f_equal.
      assert (Forall (fun q => q = e) (p0 :: ps)) as Hsame
        by now apply (heads_same _ _ e Hheads).
      apply Forall_cons in Hsame as [-> Hps].
      apply andb_true_iff. split; [now apply bool_decide_eq_true|].
      apply connected_all, Forall_app. split; [exact Hps|now constructor]. }
  split; [exact Hiff|]. split.
  - intros ls1 ls2 p1 p2 H1 H2 Hp1 Hp2 Hne Htrue.
    apply Hiff in Htrue as (_ & p & Hall & _).
    rewrite List.Forall_forall in Hall.
    pose proof (Hall _ H1). pose proof (Hall _ H2). congruence.
  - intros e. unfold is_closed_ring.
    destruct (starts linestrings) as [ss|err] eqn:Hs; cbn [mbind result_bind].
    2:{ intros [= <-]. apply starts_error in Hs as [-> Hin]. auto. }
    destruct (last linestrings) as [ls|] eqn:Hls.
    2:{ rewrite (last_item_None _ Hls). intros [= <-].
        split; [reflexivity|]. left. now apply last_None. }
    rewrite (last_item_Some _ _ Hls). cbn [mbind result_bind].
    destruct (last ls) as [pe|] eqn:Hpe.
    2:{ rewrite (last_item_None _ Hpe). intros [= <-].
        split; [reflexivity|]. right.
        apply last_None in Hpe as ->.
        apply list_elem_of_In. eapply last_Some_elem_of. exact Hls. }
    rewrite (last_item_Some _ _ Hpe). cbn [mbind result_bind].
    rewrite (last_item_Some (ss ++ [pe]) pe) by apply last_snoc.
    destruct ss as [|p0 ps]; cbn [first_item app mbind result_bind];
      discriminate.
Qed.

End RingMore.

(** ** Names of districts *)

Section CityTypesMore.
Import Stdlib.Strings.Ascii CityTypes.

Variables strip title : string -> string.

Lemma rsplit_comma_none (s : string) :
  no_comma s -> rsplit_comma s = None.
Proof.
  induction s as [|c s IH]; simpl; [reflexivity|].
  unfold no_comma. simpl. intros Hno. rewrite IH by (unfold no_comma; tauto).
  destruct (Ascii.eqb_spec c comma) as [->|_]; [|reflexivity].
  exfalso. apply Hno. now left.
Qed.

Lemma rsplit_comma_rightmost (a b : string) :
  no_comma b ->
  rsplit_comma (a +:+ String comma b) = Some (a, b).
Proof.
  intros Hb. induction a as [|c a IH]; simpl.
  - now rewrite (rsplit_comma_none b Hb).
  - now rewrite IH.
Qed.

Lemma comma_or_not (s : string) :
  no_comma s \/ exists a b, s = a +:+ String comma b /\ no_comma b.
Proof.
  induction s as [|c s [IH|(a & b & -> & Hb)]].
  - left. intros [].
  - destruct (Ascii.eqb_spec c comma) as [->|Hc].
    + right. exists EmptyString, s. split; [reflexivity|exact IH].
    + left. unfold no_comma in *. simpl. intros [?|?]; [congruence|tauto].
  - right. exists (String c a), b. split; [reflexivity|exact Hb].
Qed.

(** X12: a name without a comma is left as it is; a name with a comma is
    always rearranged: what follows the rightmost comma, stripped and in
    title case, is put in front of what precedes it, whether or not it
    names a kind of district, because the middle operand of the test is a
    string that is not empty. *)
Theorem rearrange_swaps_at_last_comma (s a b : string) :
  (no_comma s -> rearrange strip title s = s)
  /\ (no_comma b ->
      rearrange strip title (a +:+ String comma b)
      = title (strip b) +:+ " " +:+ title (strip a))
  /\ (no_comma s \/ exists a' b', s = a' +:+ String comma b' /\ no_comma b').
Proof.
  split; [|split; [|apply comma_or_not]].
  - intros Hs. unfold rearrange. now rewrite (rsplit_comma_none s Hs).
  - intros Hb. unfold rearrange. rewrite (rsplit_comma_rightmost a b Hb).
    assert (truthy "Landkreis" = true) as -> by reflexivity.
    now rewrite orb_true_r.
Qed.

End CityTypesMore.

(** ** Looking up an area by its regional key *)

Section RegionalKeyMore.
Import RegionalKey.

Lemma length_zeros (n : nat) : String.length (zeros n) = n.
Proof. induction n as [|n IH]; simpl; congruence. Qed.

Lemma length_append (a b : string) :
  String.length (a +:+ b) = (String.length a + String.length b)%nat.
Proof.
  induction a as [|c a IH]; [reflexivity|].
  change (S (String.length (a +:+ b)) = S (String.length a + String.length b)).
  now rewrite IH.
Qed.

Lemma append_empty (a : string) : a +:+ EmptyString = a.
Proof.
  induction a as [|c a IH]; [reflexivity|].
  change (String c (a +:+ EmptyString) = String c a). now rewrite IH.
Qed.

Lemma prefix_append (a b : string) : String.prefix a (a +:+ b) = true.
Proof.
  induction a as [|c a IH]; [now destruct b|].
  change (String.prefix (String c a) (String c (a +:+ b)) = true).
  simpl. destruct (Ascii.ascii_dec c c); [exact IH|congruence].
Qed.

(** X13: the key is filled with zeros to exactly twelve characters, a key
    of twelve or more is left alone, and filling twice is filling once;
    the filled key is asked for only after the key itself found nothing,
    and the cell raises [IndexError] exactly when both find nothing. *)
Theorem padded_key_is_second_try (element : Type)
    (overpass : string -> list element) (regional_key : string) :
  String.length (pad_key regional_key) = Nat.max 12 (String.length regional_key)
  /\ String.prefix regional_key (pad_key regional_key) = true
  /\ pad_key (pad_key regional_key) = pad_key regional_key
  /\ ((12 <= String.length regional_key)%nat -> pad_key regional_key = regional_key)
  /\ (fst (first_element element overpass regional_key) = [regional_key]
      <-> overpass regional_key <> [])
  /\ (snd (first_element element overpass regional_key) = Err IndexError
      <-> overpass regional_key = [] /\ overpass (pad_key regional_key) = []).
Proof.
  assert (forall k, (12 <= String.length k)%nat -> pad_key k = k) as Hlong.
  { intros k Hk. unfold pad_key.
    replace (12 - String.length k)%nat with 0%nat by lia.
    apply append_empty. }
  assert (String.length (pad_key regional_key)
          = Nat.max 12 (String.length regional_key)) as Hlen.
  { unfold pad_key. rewrite length_append, length_zeros. lia. }
  split; [exact Hlen|]. split; [apply prefix_append|].
  split; [apply Hlong; lia|]. split; [exact (Hlong regional_key)|].
  unfold first_element. destruct (overpass regional_key) as [|e els]; simpl.
  - split.
    + split; [discriminate|congruence].
    + destruct (overpass (pad_key regional_key)); simpl;
        split; try tauto; try discriminate. intros [_ [=]].
  - split.
    + split; [discriminate|reflexivity].
    + split; [discriminate|]. intros [[=] _].
Qed.

End RegionalKeyMore.

(** ** Geocoding the distribution centers *)

Section DistCentersMore.
Import Assignment DistCenters.

Variable row : Type.
Variable nominatim : row -> attempt (list Point).

Lemma found_snoc (col : list (option Point)) (o : option Point) :
  found (col ++ [o]) = found col ++ match o with Some p => [p] | None => [] end.
Proof.
  unfold found. rewrite omap_app. simpl. now destruct o.
Qed.

Lemma geocode_invariant (rows : list row) :
  forall st st',
  geocode row nominatim rows st = Done st' ->
  location st = last (found (column st)) ->
  location st' = last (found (column st'))
  /\ List.length (column st') = (List.length (column st) + List.length rows)%nat
  /\ slept st' = (slept st + List.length rows)%nat
  /\ column st `prefix_of` column st'.
Proof.
  induction rows as [|r rest IH]; intros st st'; simpl.
  - intros [= <-] Hinv. repeat split; [exact Hinv|lia..|reflexivity].
  - destruct (nominatim r) as [[|p data]|e]; [| |discriminate].
    + intros Hrest Hinv. destruct (IH _ _ Hrest) as (H1 & H2 & H3 & H4).
      * simpl. rewrite found_snoc, app_nil_r. exact Hinv.
      * simpl in *. rewrite length_app in H2. simpl in H2.
        repeat split; [exact H1|lia..|].
        etransitivity; [|exact H4]. now apply prefix_app_r.
    + intros Hrest Hinv. destruct (IH _ _ Hrest) as (H1 & H2 & H3 & H4).
      * simpl. rewrite found_snoc. now rewrite last_snoc.
      * simpl in *. rewrite length_app in H2. simpl in H2.
        repeat split; [exact H1|lia..|].
        etransitivity; [|exact H4]. now apply prefix_app_r.
Qed.

(** X14: after the geocoding loop the column has one entry per center
    and one second was slept per center.  The correction then writes row
    0 only; when Overpass knows no element for the building, it writes
    there the last location Nominatim found for any center, left over in
    the variable [location], and raises [NameError] when Nominatim found
    none at all. *)
Theorem correction_reuses_last_location (rows : list row) (st : state)
    (overpass : attempt (list Point)) :
  geocode row nominatim rows start = Done st ->
  List.length (column st) = List.length rows
  /\ slept st = List.length rows
  /\ match overpass with
     | Failed e => correct overpass st = Failed e
     | Done (c :: _) =>
         exists st', correct overpass st = Done st'
                     /\ column st' = set_first c (column st)
     | Done [] =>
         match last (found (column st)) with
         | Some p =>
             exists st', correct overpass st = Done st'
                         /\ column st' = set_first p (column st)
         | None => correct overpass st = Failed NameError
         end
     end.
Proof.
  intros Hloop.
  destruct (geocode_invariant rows start st Hloop eq_refl) as (Hloc & Hlen & Hslept & _).
  split; [exact Hlen|]. split; [exact Hslept|].
  unfold correct. destruct overpass as [[|c els]|e]; [| |reflexivity].
  - rewrite Hloc. destruct (last (found (column st))) as [p|]; [|reflexivity].
    eexists. split; reflexivity.
  - eexists. split; reflexivity.
Qed.

End DistCentersMore.

(** ** Collecting the sources of the simulation *)

Section SourcesCopyMore.
Import SourcesCopy.

Variable kind_of : source -> option kind.

Lemma copied_stable (d d' : gmap string kind) (src : source) :
  (forall n k, d !! n = Some k -> k <> Other -> d' !! n = Some k) ->
  copied kind_of d src -> copied kind_of d' src.
Proof.
  intros Hst. unfold copied.
  destruct (kind_of src) as [[]|]; auto; intros H; apply (Hst _ _ H); discriminate.
Qed.

Lemma loop_stops (src : source) (more : list source) (st : state) (e : error) :
  raised_at kind_of (dest st) e src ->
  loop_did kind_of (src :: more) st st (Some e).
Proof.
  intros He. split; [auto|].
  exists [], (src :: more). simpl. rewrite app_nil_r.
  repeat split; auto. exists src, more. split; [reflexivity|exact He].
Qed.

Lemma loop_goes_on (src : source) (more : list source) (st st' : state)
    (oe : option error) (d : gmap string kind) :
  (forall n k, dest st !! n = Some k -> k <> Other -> d !! n = Some k) ->
  (forall n k, d !! n = Some k ->
     dest st !! n = Some k \/ copy_of kind_of n k src) ->
  copied kind_of d src ->
  loop_did kind_of more (mkState d (printed st ++ [first src])) st' oe ->
  loop_did kind_of (src :: more) st st' oe.
Proof.
  intros Hkeep Hnew Hcopied (Hst & done & todo & -> & Hpr & Hdone & Hfrom & Hoe).
  cbn [dest printed] in *.
  split; [auto|].
  exists (src :: done), todo. split; [reflexivity|]. split.
  { rewrite Hpr, <- app_assoc. reflexivity. }
  split.
  { constructor; [|exact Hdone].
    eapply copied_stable; [exact Hst|exact Hcopied]. }
  split; [|exact Hoe].
  intros n k Hn. destruct (Hfrom n k Hn) as [Hd|(src0 & Hin & Hc)].
  - destruct (Hnew n k Hd) as [?|Hc]; [now left|].
    right. exists src. split; [now left|exact Hc].
  - right. exists src0. split; [now right|exact Hc].
Qed.

Lemma insert_adds (d : gmap string kind) (n0 : string) (k0 : kind) :
  forall n k, <[n0 := k0]> d !! n = Some k ->
  d !! n = Some k \/ (n = n0 /\ k = k0).
Proof.
  intros n k. destruct (decide (n = n0)) as [->|Hne].
  - rewrite lookup_insert_eq. intros [= <-]. now right.
  - rewrite lookup_insert_ne by auto. now left.
Qed.

Lemma copy_sources_invariant (sources : list source) :
  forall st st' oe,
  copy_sources kind_of sources st = (st', oe) ->
  loop_did kind_of sources st st' oe.
Proof.
  induction sources as [|src more IH]; intros st st' oe; simpl.
  - intros [= <- <-]. split; [auto|].
    exists [], []. simpl. rewrite app_nil_r. repeat split; auto.
  - destruct (kind_of src) as [[]|] eqn:Hkind.
    + assert (forall n k, <[name src := File]> (dest st) !! n = Some k ->
                dest st !! n = Some k \/ copy_of kind_of n k src) as Hnew.
      { intros n k Hn. apply insert_adds in Hn as [?|[-> ->]]; [now left|].
        right. left. auto. }
      assert (copied kind_of (<[name src := File]> (dest st)) src) as Hcop.
      { unfold copied. rewrite Hkind. apply lookup_insert_eq. }
      assert (dest st !! name src <> Some Dir ->
              copy_sources kind_of more
                (mkState (<[name src := File]> (dest st)) (printed st ++ [first src]))
              = (st', oe) -> loop_did kind_of (src :: more) st st' oe) as Hfile.
      { intros Hnodir Hrun. apply IH in Hrun.
        apply (loop_goes_on _ _ _ _ _ (<[name src := File]> (dest st)));
          [|exact Hnew|exact Hcop|exact Hrun].
        intros n k Hn Hk. destruct (decide (n = name src)) as [->|Hne].
        - rewrite lookup_insert_eq. destruct k; congruence.
        - now rewrite lookup_insert_ne. }
      destruct (dest st !! name src) as [[]|] eqn:Hname.
      * apply Hfile. discriminate.
      * intros [= <- <-]. apply loop_stops. split; assumption.
      * apply Hfile. discriminate.
      * apply Hfile. discriminate.
    + destruct (dest st !! first src) as [k0|] eqn:Hfirst.
      * intros [= <- <-]. apply loop_stops. split; [assumption|eauto].
      * intros Hrun. apply IH in Hrun.
        apply (loop_goes_on _ _ _ _ _ (<[first src := Dir]> (dest st)));
          [| | |exact Hrun].
        -- intros n k Hn _. destruct (decide (n = first src)) as [->|Hne];
             [congruence|now rewrite lookup_insert_ne].
        -- intros n k Hn. apply insert_adds in Hn as [?|[-> ->]]; [now left|].
           right. right. auto.
        -- unfold copied. rewrite Hkind. apply lookup_insert_eq.
    + intros Hrun. apply IH in Hrun.
      apply (loop_goes_on _ _ _ _ _ (dest st)); [auto|auto| |exact Hrun].
      unfold copied. now rewrite Hkind.
    + intros [= <- <-]. apply loop_stops. split; [assumption|reflexivity].
Qed.

Lemma collect_sources_loop (before : entry) (sources : list source)
    (st : state) (oe : option error) :
  collect_sources kind_of before sources = (Some st, oe) ->
  loop_did kind_of sources (mkState ∅ []) st oe.
Proof.
  unfold collect_sources. intros Hrun. apply copy_sources_invariant.
  destruct before; [|discriminate|];
    destruct (copy_sources kind_of sources (mkState ∅ [])) as [s o];
    simpl in Hrun; congruence.
Qed.

(** X15: when the cell ends without an exception, the destination holds
    every listed file under its name and every listed directory under
    the first component of its entry, it holds nothing else, whatever
    was there before, and one line was printed per source. *)
Theorem collected_sources_complete (before : entry) (sources : list source)
    (st : state) :
  collect_sources kind_of before sources = (Some st, None) ->
  Forall (copied kind_of (dest st)) sources
  /\ (forall n k, dest st !! n = Some k ->
        exists src, In src sources /\ copy_of kind_of n k src)
  /\ printed st = map first sources.
Proof.
  intros Hrun.
  destruct (collect_sources_loop _ _ _ _ Hrun)
    as (_ & done & todo & -> & Hpr & Hdone & Hfrom & ->).
  rewrite app_nil_r in *. split; [exact Hdone|]. split; [|exact Hpr].
  intros n k Hn. destruct (Hfrom n k Hn) as [Hempty|Hsrc]; [|exact Hsrc].
  simpl in Hempty. now rewrite lookup_empty in Hempty.
Qed.

(** X16: when the cell stops because a source is missing, the exception
    names the first source that does not exist, and the destination,
    emptied at the start, holds the sources listed before it and
    nothing of what it held before. *)
Theorem missing_source_leaves_partial_copy (before : entry)
    (sources : list source) (st : state) (source_name : string) :
  collect_sources kind_of before sources
    = (Some st, Some (MissingSource source_name)) ->
  exists done src more,
    sources = done ++ src :: more
    /\ kind_of src = None
    /\ source_name = first src
    /\ Forall (fun s => kind_of s <> None) done
    /\ Forall (copied kind_of (dest st)) done
    /\ (forall n k, dest st !! n = Some k ->
          exists s, In s done /\ copy_of kind_of n k s)
    /\ printed st = map first done.
Proof.
  intros Hrun.
  destruct (collect_sources_loop _ _ _ _ Hrun)
    as (_ & done & todo & -> & Hpr & Hdone & Hfrom & src & more & -> & Hnone & Hname).
  exists done, src, more. repeat split; auto.
  - eapply Forall_impl; [exact Hdone|]. intros s Hs. unfold copied in Hs.
    destruct (kind_of s); [discriminate|contradiction].
  - intros n k Hn. destruct (Hfrom n k Hn) as [Hempty|Hs]; [|exact Hs].
    simpl in Hempty. now rewrite lookup_empty in Hempty.
Qed.

End SourcesCopyMore.

(** ** Instances of the further properties *)

Section InstancesMore.
Import Assignment ModeTable Trips Batch Pipeline Demo Samples.

(** Two customers and four pharmacies on a line: both customers get
    their three requests. *)
Lemma assigned_customers_have_tasks_witness :
  assign (fun p => p) axis_distance ph_locs located_customers draw = Ok assigned
  /\ map cus_index assigned = map fst located_customers
  /\ map cus_loc assigned = map snd located_customers
  /\ Forall (fun cus =>
               exists ts, tasks (geometry_of ph_locs) cus = Ok ts
                          /\ List.length ts = 3%nat
                          /\ Forall (fun r => id r = cus_index cus) ts)
            assigned.
Proof.
  split.
  - vm_compute. reflexivity.
  - apply (assigned_customers_have_tasks (fun p => p) axis_distance ph_locs
             located_customers draw assigned).
    + apply (bool_decide_unpack _). vm_compute. reflexivity.
    + vm_compute. reflexivity.
Defined.

(** Two pharmacies at positive distances: one of them is returned. *)
Lemma choose_pharmacy_outcomes_witness :
  match choose_pharmacy two_pharmacies 0.5 with
  | Ok p =>
      two_pharmacies <> []
      /\ (forall r, In r (closest two_pharmacies) -> 0 < snd r)
      /\ In p (map fst (closest two_pharmacies))
  | Err e =>
      (two_pharmacies = []
       /\ e = ValueError "Invalid weights: weights sum to zero")
      \/ ((exists r, In r two_pharmacies /\ snd r == 0)
          /\ e = ValueError "weight vector may not include `inf` values")
  end.
Proof.
  apply (choose_pharmacy_outcomes two_pharmacies 0.5).
  - intros r [<-|[<-|[]]]; vm_compute; discriminate.
  - split; vm_compute; [discriminate|reflexivity].
Defined.

(** With a draw of 0.2 the nearer of two pharmacies is chosen. *)
Lemma small_draw_picks_nearest_witness :
  exists p d, choose_pharmacy two_pharmacies 0.2 = Ok p
              /\ In (p, d) two_pharmacies
              /\ forall r, In r two_pharmacies -> d <= snd r.
Proof.
  apply (small_draw_picks_nearest two_pharmacies 0.2).
  - discriminate.
  - intros r [<-|[<-|[]]]; vm_compute; reflexivity.
  - vm_compute. discriminate.
  - vm_compute. reflexivity.
Defined.

(** The answers for customer 7 in the order of the requests and in the
    reverse order. *)
Lemma completion_order_irrelevant_witness :
  exists res1 res2,
    collect routed tasks_7 [] = Ok res1
    /\ collect routed (rev tasks_7) [] = Ok res2
    /\ Permutation res1 res2
    /\ match avg_length res1, avg_length res2 with
       | Ok a1, Ok a2 => a1 == a2
       | Err e1, Err e2 => e1 = e2
       | _, _ => False
       end.
Proof.
  apply (completion_order_irrelevant routed pharmacies customer_7 tasks_7
           tasks_7 (rev tasks_7)).
  - vm_compute. reflexivity.
  - reflexivity.
  - symmetry. apply Permutation_rev.
  - unfold tasks_7, mots. simpl map.
    repeat (constructor; [eexists; reflexivity|]). constructor.
Defined.

(** The car is answered, the bicycle fails: the customer fails, although
    the walk would have been answered. *)
Lemma fetch_error_fails_customer_witness :
  process_customer bicycle_fails in_order evaluate pharmacies customer_7
  = Err ClientError.
Proof.
  apply (fetch_error_fails_customer bicycle_fails in_order evaluate pharmacies
           customer_7 tasks_7 [task_7 auto] [task_7 pedestrian]
           (task_7 bicycle) ClientError).
  - vm_compute. reflexivity.
  - reflexivity.
  - constructor; [eexists; reflexivity|constructor].
  - reflexivity.
Defined.

(** Two customers, completed in the reverse order, after two reloads. *)
Lemma returned_trips_cover_customers_witness :
  exists trips,
    snd (calculate_trips (healthy_after 2) routed (@rev request) evaluate
           pharmacies (@rev customer) customers 5) = Returned trips
    /\ dom trips = list_to_set (map cus_index customers)
    /\ (forall i t, trips !! i = Some t -> is_Some (trip_mot t))
    /\ (NoDup (map cus_index customers) -> size trips = List.length customers)
    /\ exists n,
         fst (calculate_trips (healthy_after 2) routed (@rev request) evaluate
                pharmacies (@rev customer) customers 5)
         = (EvStart :: polls n ++ [EvSleep 1; EvSessionEnter])
           ++ trip_events (rev customers)
           ++ [EvSessionExit; EvStop].
Proof.
  destruct (snd (calculate_trips (healthy_after 2) routed (@rev request) evaluate
                   pharmacies (@rev customer) customers 5)) as [trips| |] eqn:E.
  - exists trips. split; [reflexivity|].
    apply (returned_trips_cover_customers (healthy_after 2) routed (@rev request)
             evaluate pharmacies (@rev customer) customers 5 trips).
    + symmetry. apply Permutation_rev.
    + exact E.
  - vm_compute in E. discriminate E.
  - vm_compute in E. discriminate E.
Defined.


(** The shares of a short distance class. *)
Lemma normalized_rows_are_probabilities_witness :
  match normalize (combine raw_short) with
  | Some r =>
      0 < row_sum (combine raw_short) /\ forall m, 0 <= prob r m <= 1
  | None =>
      car_driver raw_short == 0 /\ car_passenger raw_short == 0
      /\ motorcycle raw_short == 0 /\ taxi raw_short == 0
      /\ raw_bicycle raw_short == 0 /\ raw_pedestrian raw_short == 0
  end.
Proof.
  apply (normalized_rows_are_probabilities raw_short); vm_compute; discriminate.
Defined.

(** Three centers, the second unknown to Nominatim, and a building
    unknown to Overpass: row 0 receives the location of the third
    center. *)
Lemma correction_reuses_last_location_witness :
  List.length (DistCenters.column geocoded) = 3%nat
  /\ DistCenters.slept geocoded = 3%nat
  /\ exists st',
       DistCenters.correct (DistCenters.Done []) geocoded = DistCenters.Done st'
       /\ DistCenters.column st'
          = DistCenters.set_first (mkPoint 8.7 50.1) (DistCenters.column geocoded).
Proof.
  exact (correction_reuses_last_location nat nominatim [0%nat; 1%nat; 2%nat]
           geocoded (DistCenters.Done []) eq_refl).
Defined.

(** The six sources of the notebook, all there, copied over a
    destination left from an earlier run. *)
Lemma collected_sources_complete_witness :
  exists st,
    SourcesCopy.collect_sources all_there leftover sources = (Some st, None)
    /\ Forall (SourcesCopy.copied all_there (SourcesCopy.dest st)) sources
    /\ (forall n k, SourcesCopy.dest st !! n = Some k ->
          exists src, In src sources /\ SourcesCopy.copy_of all_there n k src)
    /\ SourcesCopy.printed st = map SourcesCopy.first sources.
Proof.
  destruct (SourcesCopy.collect_sources all_there leftover sources)
    as [[st|] [e|]] eqn:E; try (vm_compute in E; discriminate E).
  exists st. split; [reflexivity|].
  apply (collected_sources_complete all_there leftover sources st). exact E.
Defined.

(** The pharmacies are missing: the first three sources are copied, the
    exception names the pharmacies. *)
Lemma missing_source_leaves_partial_copy_witness :
  exists st done src more,
    SourcesCopy.collect_sources no_pharmacies leftover sources
    = (Some st, Some (SourcesCopy.MissingSource "pharmacies"))
    /\ sources = done ++ src :: more
    /\ no_pharmacies src = None
    /\ "pharmacies" = SourcesCopy.first src
    /\ Forall (fun s => no_pharmacies s <> None) done
    /\ Forall (SourcesCopy.copied no_pharmacies (SourcesCopy.dest st)) done
    /\ (forall n k, SourcesCopy.dest st !! n = Some k ->
          exists s, In s done /\ SourcesCopy.copy_of no_pharmacies n k s)
    /\ SourcesCopy.printed st = map SourcesCopy.first done.
Proof.
  destruct (SourcesCopy.collect_sources no_pharmacies leftover sources)
    as [[st|] [[n| | |]|]] eqn:E; try (vm_compute in E; discriminate E).
  assert (n = "pharmacies") as -> by (vm_compute in E; congruence).
  destruct (missing_source_leaves_partial_copy no_pharmacies leftover sources
              st "pharmacies" E) as (done & src & more & H).
  exists st, done, src, more. split; [reflexivity|exact H].
Defined.

End InstancesMore.
